(** * geo: perimeters of simple shapes and of scenes of shapes

  A shallow embedding of [geo.cpp] and the properties of its
  specification.

  Arithmetic model.  The program computes with C++ [double] and
  [long double].  Both are modelled by [spec_float], the IEEE 754
  specification of the Standard Library, at the formats of the x86-64
  System V ABI: [double] is binary64 (53 bits of precision) and
  [long double] is the x87 extended format (64 bits of precision).
  Every arithmetic operation and every conversion rounds to nearest,
  ties to even. *)

From Stdlib Require Import Reals Lra Machin.
From Stdlib Require Import ZArith Bool String List Lia Permutation.
From Stdlib Require Import Floats.SpecFloat.
Import ListNotations.
Local Open Scope Z_scope.

(** ** Floating-point formats *)

Module fp.

Definition double := spec_float.
Definition long_double := spec_float.

(** A value of a format with [prec] bits and exponent bound [emax]. *)
Definition in_format (prec emax : Z) (x : spec_float) : Prop :=
  valid_binary prec emax x = true.

Definition is_double (x : double) : Prop := in_format 53 1024 x.
Definition is_long_double (x : long_double) : Prop := in_format 64 16384 x.

(** Conversion between formats: the value is rounded to the target. *)
Definition convert (prec emax : Z) (x : spec_float) : spec_float :=
  match x with
  | S754_finite s m e => binary_round prec emax s m e
  | _ => x
  end.

Definition to_long_double (x : double) : long_double := convert 64 16384 x.
Definition to_double (x : long_double) : double := convert 53 1024 x.

(** [double] arithmetic and comparison. *)
Definition dadd (x y : double) : double := SFadd 53 1024 x y.
Definition dmul (x y : double) : double := SFmul 53 1024 x y.
Definition dlt (x y : double) : bool := SFltb x y.

(** [long double] arithmetic. *)
Definition lmul (x y : long_double) : long_double := SFmul 64 16384 x y.

(** Literals and integer conversions: [0], [1] as [double];
    [8.L], [4.L], [3.L], [0.0L] as [long double]. *)
Definition double_of_int (z : Z) : double := binary_normalize 53 1024 z 0 false.
Definition long_literal (z : Z) : long_double := binary_normalize 64 16384 z 0 false.

(** [std::atan(1)]: the call promotes the [int] to [double]; the C
    library returns the [double] nearest to pi/4, 0x3FE921FB54442D18. *)
Definition atan_1 : double := S754_finite false 7074237752028440 (-53).

Definition nan : double := S754_nan.
Definition pzero : double := S754_zero false.

End fp.

Import fp.

(** ** The classes of namespace [geo] *)

Module geo.

(** [class dimension_smaller_than_zero : public std::logic_error] *)
Inductive exn : Type :=
| dimension_smaller_than_zero (what : string).

(** Outcome of a constructor: the object, or the exception thrown. *)
Inductive result (A : Type) : Type :=
| Ok (a : A)
| Throw (e : exn).
Arguments Ok {A} a.
Arguments Throw {A} e.

(** A member function that is not [const]: it returns its value and the
    object as the call leaves it. *)
Definition method (T R : Type) : Type := T -> R * T.

Module circle.

Record t : Type := { r_ : double }.

Definition new (r : double) : result t :=
  let this := {| r_ := r |} in
  if dlt r (double_of_int 0)
  then Throw (dimension_smaller_than_zero
                "A circle must have a radius of at least 0.")
  else Ok this.

Definition get_circumference : method t double := fun this =>
  (to_double
     (lmul (lmul (long_literal 8) (to_long_double atan_1))
           (to_long_double (r_ this))),
   this).

End circle.

Module square.

Record t : Type := { side_ : double }.

Definition new (side : double) : result t :=
  let this := {| side_ := side |} in
  if dlt side (double_of_int 0)
  then Throw (dimension_smaller_than_zero
                "A square must have a length of at least 0.")
  else Ok this.

Definition get_circumference : method t double := fun this =>
  (to_double (lmul (long_literal 4) (to_long_double (side_ this))), this).

End square.

Module equilateral_triangle.

Record t : Type := { side_ : double }.

Definition new (side : double) : result t :=
  let this := {| side_ := side |} in
  if dlt side (double_of_int 0)
  then Throw (dimension_smaller_than_zero
                "An equilateral_triangle must have a length of at least 0.")
  else Ok this.

Definition get_circumference : method t double := fun this =>
  (to_double (lmul (long_literal 3) (to_long_double (side_ this))), this).

End equilateral_triangle.

(** [class shape]: the abstract base.  An object of static type [shape]
    has dynamic type [circle], [square] or [equilateral_triangle]. *)
Inductive shape : Type :=
| a_circle (c : circle.t)
| a_square (s : square.t)
| a_triangle (t : equilateral_triangle.t).

(** The virtual call [get_circumference()]: dispatch on the dynamic type. *)
Definition get_circumference : method shape double := fun this =>
  match this with
  | a_circle c =>
      let (x, c') := circle.get_circumference c in (x, a_circle c')
  | a_square s =>
      let (x, s') := square.get_circumference s in (x, a_square s')
  | a_triangle t =>
      let (x, t') := equilateral_triangle.get_circumference t in
      (x, a_triangle t')
  end.

(** *** The free store and shared pointers

    The shapes of a scene live on the free store and are reached through
    [std::shared_ptr<shape>].  The store is the list of the shape objects
    allocated so far; a pointer is the position of its object.  A
    computation that follows pointers takes the store and returns it;
    [None] stands for the undefined behaviour of following a pointer to
    no object. *)
Definition ptr : Type := nat.
Definition store : Type := list shape.
Definition M (A : Type) : Type := store -> option (A * store).

Definition ret {A : Type} (a : A) : M A := fun h => Some (a, h).

Definition bind {A B : Type} (m : M A) (k : A -> M B) : M B := fun h =>
  match m h with
  | Some (a, h') => k a h'
  | None => None
  end.

Notation "x <- m ;; k" := (bind m (fun x => k))
  (at level 61, m at next level, right associativity).

(** Writing object [o] at position [p]. *)
Fixpoint put (h : store) (p : ptr) (o : shape) : store :=
  match h, p with
  | [], _ => []
  | _ :: h', O => o :: h'
  | x :: h', S p' => x :: put h' p' o
  end.

(** [std::make_shared<T>(...)], once the constructor of [T] has returned. *)
Definition make_shared (o : shape) : M ptr := fun h =>
  Some (List.length h, h ++ [o]).

(** [p->f()]: run member function [f] on the object [p] points to. *)
Definition arrow {R : Type} (p : ptr) (f : method shape R) : M R := fun h =>
  match nth_error h p with
  | Some o => let (r, o') := f o in Some (r, put h p o')
  | None => None
  end.

(** [std::accumulate(first, last, init, op)] *)
Fixpoint accumulate {T E : Type} (l : list E) (init : T) (op : T -> E -> M T)
  : M T :=
  match l with
  | [] => ret init
  | x :: l' => acc <- op init x ;; accumulate l' acc op
  end.

Module scene.

Record t : Type := { shapes_ : list ptr }.

(** A default-constructed scene. *)
Definition new : t := {| shapes_ := [] |}.

Definition add_shape (s : ptr) : method t unit := fun this =>
  (tt, {| shapes_ := shapes_ this ++ [s] |}).

(** The accumulator has the type of [0.0L], [long double]; the lambda
    takes it as a [double] and returns a [double]. *)
Definition get_circumference (this : t) : M (double * t) :=
  sum <- accumulate (shapes_ this) (long_literal 0)
           (fun (acc : long_double) (b : ptr) =>
              let a := to_double acc in
              c <- arrow b get_circumference ;;
              ret (to_long_double (dadd a c))) ;;
  ret (to_double sum, this).

End scene.

End geo.

Import geo.

(** ** Real values of floats *)

Definition bpow (e : Z) : R := powerRZ 2 e.

Definition sign (s : bool) : R := if s then (-1)%R else 1%R.

(** The real number a finite float stands for; 0 for the others. *)
Definition SF2R (x : spec_float) : R :=
  match x with
  | S754_finite s m e => (sign s * (IZR (Zpos m) * bpow e))%R
  | _ => 0%R
  end.

(** Zeros and finite numbers, as opposed to infinities and NaN. *)
Definition is_finite (x : spec_float) : bool :=
  match x with
  | S754_zero _ | S754_finite _ _ _ => true
  | _ => false
  end.

(** ** The specification's reading of the operations *)

Module spec.

(** A dimension is strictly negative: a negative number or minus
    infinity.  The zeros of either sign and NaN are not. *)
Definition strictly_negative (d : double) : bool :=
  match d with
  | S754_finite true _ _ | S754_infinity true => true
  | _ => false
  end.

(** A dimension is at least 0: a zero of either sign, a positive number
    or plus infinity.  NaN is not. *)
Definition at_least_zero (d : double) : bool :=
  match d with
  | S754_zero _ | S754_finite false _ _ | S754_infinity false => true
  | _ => false
  end.

(** A float is within relative tolerance [tol] of the real number [v]:
    it is a number, and differs from [v] by at most [tol * |v|]. *)
Definition within (tol : R) (x : double) (v : R) : Prop :=
  is_finite x = true /\ (Rabs (SF2R x - v) <= tol * Rabs v)%R.

(** The pointer designates an object of the store. *)
Definition live (h : store) (p : ptr) : Prop := (p < List.length h)%nat.

(** The perimeter of the shape [p] points to. *)
Definition perimeter (h : store) (p : ptr) : double :=
  match nth_error h p with
  | Some o => fst (get_circumference o)
  | None => nan
  end.

(** Two floats agree within relative tolerance [tol]: they are the same,
    or both are numbers that differ by at most [tol] times the larger
    magnitude. *)
Definition agree (tol : R) (x y : double) : Prop :=
  x = y \/
  (is_finite x = true /\ is_finite y = true /\
   (Rabs (SF2R x - SF2R y)
    <= tol * Rmax (Rabs (SF2R x)) (Rabs (SF2R y)))%R).

(** The shape is one its constructor returns. *)
Definition constructed (o : shape) : Prop :=
  match o with
  | a_circle c => circle.new (circle.r_ c) = Ok c
  | a_square s => square.new (square.side_ s) = Ok s
  | a_triangle t =>
      equilateral_triangle.new (equilateral_triangle.side_ t) = Ok t
  end.

(** The left fold of a sequence of shapes: from [0.0], add the perimeter
    of each shape in sequence order, in [double] arithmetic. *)
Definition left_fold (h : store) (shapes : list ptr) : double :=
  fold_left (fun acc p => dadd acc (perimeter h p)) shapes pzero.

(** The sum of the perimeters of a sequence of shapes, in real numbers. *)
Fixpoint exact_sum (h : store) (shapes : list ptr) : R :=
  match shapes with
  | [] => 0%R
  | p :: shapes' => (SF2R (perimeter h p) + exact_sum h shapes')%R
  end.

End spec.

(** ** Further notions for the properties of shapes and scenes *)

(** The dimension a shape stores: the radius or the side. *)
Definition dimension (o : shape) : double :=
  match o with
  | a_circle c => circle.r_ c
  | a_square s => square.side_ s
  | a_triangle t => equilateral_triangle.side_ t
  end.

Definition is_zero (x : spec_float) : bool :=
  match x with
  | S754_zero _ => true
  | _ => false
  end.

(** The scene after [add_shape] of each pointer of [l], in order, on a
    default-constructed scene. *)
Definition scene_of (l : list ptr) : scene.t :=
  fold_left (fun sc p => snd (scene.add_shape p sc)) l scene.new.

(** ** Reference functions for rounding

    What the shifts and the rounding of [binary_round_aux] compute, in terms
    of integer division. *)

(** The record after [k >= 1] right shifts of the exact mantissa [X]. *)
Definition shr_spec (X k : Z) : shr_record :=
  {| shr_m := X / 2 ^ k;
     shr_r := Z.odd (X / 2 ^ (k - 1));
     shr_s := negb (X mod 2 ^ (k - 1) =? 0) |}.

(** The integer nearest to [X / 2 ^ n], ties to even. *)
Definition rne (X n : Z) : Z :=
  let q := X / 2 ^ n in
  match 2 * (X mod 2 ^ n) ?= 2 ^ n with
  | Lt => q
  | Eq => if Z.even q then q else q + 1
  | Gt => q + 1
  end.

(** The second half of [binary_round_aux]: the float of sign [s] with the
    rounded significand [q] at exponent [e]; a significand that rounding
    carried to [prec + 1] bits is brought back to [prec] bits, and an
    exponent above the range gives an infinity. *)
Definition finish (prec emax : Z) (s : bool) (q e : Z) : spec_float :=
  let '(mrs, e') := shr_fexp prec emax q e loc_Exact in
  match shr_m mrs with
  | Z0 => S754_zero s
  | Zpos m => if e' <=? emax - prec then S754_finite s m e' else S754_infinity s
  | Zneg _ => S754_nan
  end.

(** ** Digits, shifts and rounding of integers *)

(** *** Number of binary digits *)

Lemma digits2_pos_size (p : positive) : digits2_pos p = Pos.size p.
Proof. induction p; simpl; congruence. Qed.

Lemma Zdigits2_bounds (p : positive) :
  2 ^ (Zdigits2 (Zpos p) - 1) <= Zpos p < 2 ^ Zdigits2 (Zpos p).
Proof.
  change (Zdigits2 (Zpos p)) with (Zpos (digits2_pos p)).
  rewrite digits2_pos_size. split.
  - pose proof (Pos.size_le p) as H.
    assert (Hs : 2 ^ Zpos (Pos.size p) <= 2 * Zpos p).
    { change (2 * Zpos p) with (Zpos (p~0)). rewrite <- Pos2Z.inj_pow. exact H. }
    replace (Zpos (Pos.size p)) with (Zpos (Pos.size p) - 1 + 1) in Hs by lia.
    rewrite Z.pow_add_r, Z.pow_1_r in Hs by lia. lia.
  - pose proof (Pos.size_gt p) as H.
    rewrite <- Pos2Z.inj_pow. exact H.
Qed.

Lemma Zdigits2_pos (p : positive) : 0 < Zdigits2 (Zpos p).
Proof. change (Zdigits2 (Zpos p)) with (Zpos (digits2_pos p)). lia. Qed.

Lemma Zdigits2_unique (p : positive) (k : Z) :
  2 ^ (k - 1) <= Zpos p < 2 ^ k -> Zdigits2 (Zpos p) = k.
Proof.
  intros [Hl Hu]. pose proof (Zdigits2_bounds p) as [Hl' Hu'].
  pose proof (Zdigits2_pos p) as Hd.
  assert (Hk : 0 < k).
  { destruct (Z.ltb_spec 0 k) as [|Hk]; [assumption|].
    rewrite (Z.pow_neg_r 2 (k - 1)) in Hl by lia.
    assert (2 ^ k <= 1); [|lia].
    destruct (Z.eq_dec k 0) as [->|]; [simpl; lia|].
    rewrite Z.pow_neg_r by lia. lia. }
  destruct (Z.lt_trichotomy (Zdigits2 (Zpos p)) k) as [H|[H|H]]; [|assumption|].
  - assert (2 ^ Zdigits2 (Zpos p) <= 2 ^ (k - 1)) by (apply Z.pow_le_mono_r; lia).
    lia.
  - assert (2 ^ k <= 2 ^ (Zdigits2 (Zpos p) - 1)) by (apply Z.pow_le_mono_r; lia).
    lia.
Qed.

Lemma Zdigits2_mul_pow2 (p q : positive) (a : Z) :
  0 <= a -> Zpos q = Zpos p * 2 ^ a ->
  Zdigits2 (Zpos q) = Zdigits2 (Zpos p) + a.
Proof.
  intros Ha Hq. apply Zdigits2_unique.
  pose proof (Zdigits2_bounds p) as [Hl Hu].
  pose proof (Zdigits2_pos p) as Hd.
  rewrite Hq.
  replace (Zdigits2 (Zpos p) + a - 1) with (Zdigits2 (Zpos p) - 1 + a) by lia.
  rewrite !Z.pow_add_r by lia.
  assert (0 < 2 ^ a) by (apply Z.pow_pos_nonneg; lia).
  split; nia.
Qed.

(** *** Shifting right *)

Lemma iter_pos_nat {A : Type} (f : A -> A) (p : positive) (x : A) :
  iter_pos f p x = Nat.iter (Pos.to_nat p) f x.
Proof.
  revert x. induction p as [p IH|p IH|]; intros x; cbn [iter_pos].
  - rewrite !IH, <- Nat.iter_add, <- Nat.iter_succ_r.
    f_equal. lia.
  - rewrite !IH, <- Nat.iter_add. f_equal. lia.
  - reflexivity.
Qed.

Lemma shr_1_nonneg (m : Z) (r s : bool) :
  0 <= m ->
  shr_1 (Build_shr_record m r s) = Build_shr_record (m / 2) (Z.odd m) (r || s).
Proof.
  intros Hm. rewrite <- Z.div2_div.
  destruct m as [|p|p]; [reflexivity| |lia].
  destruct p; reflexivity.
Qed.

Lemma shr_spec_first (X : Z) :
  0 <= X -> shr_1 (Build_shr_record X false false) = shr_spec X 1.
Proof.
  intros HX. rewrite shr_1_nonneg by assumption. unfold shr_spec.
  change (1 - 1) with 0. rewrite Z.pow_0_r, Z.pow_1_r, Z.div_1_r, Z.mod_1_r.
  reflexivity.
Qed.

Lemma shr_spec_step (X k : Z) :
  0 <= X -> 1 <= k -> shr_1 (shr_spec X k) = shr_spec X (k + 1).
Proof.
  intros HX Hk. unfold shr_spec.
  assert (Hp : 0 < 2 ^ (k - 1)) by (apply Z.pow_pos_nonneg; lia).
  assert (Hk2 : 2 ^ k = 2 ^ (k - 1) * 2).
  { replace k with (k - 1 + 1) at 1 by lia.
    rewrite Z.pow_add_r, Z.pow_1_r by lia. reflexivity. }
  rewrite shr_1_nonneg by (apply Z.div_pos; lia).
  replace (k + 1 - 1) with k by lia.
  f_equal.
  - rewrite Z.div_div by lia.
    rewrite Z.pow_add_r, Z.pow_1_r by lia. reflexivity.
  - rewrite Hk2, Z.rem_mul_r by lia.
    pose proof (Z.mod_pos_bound X (2 ^ (k - 1)) Hp) as Hlow.
    pose proof (Z.mod_pos_bound (X / 2 ^ (k - 1)) 2 ltac:(lia)) as Hbit.
    rewrite (Zodd_mod (X / 2 ^ (k - 1))).
    destruct (Z.eqb_spec ((X / 2 ^ (k - 1)) mod 2) 1) as [H1|H1];
      destruct (Z.eqb_spec (X mod 2 ^ (k - 1)) 0) as [H0|H0]; cbn [orb negb];
      symmetry.
    + apply negb_true_iff, Z.eqb_neq. nia.
    + apply negb_true_iff, Z.eqb_neq. nia.
    + apply negb_false_iff, Z.eqb_eq. nia.
    + apply negb_true_iff, Z.eqb_neq. nia.
Qed.

Lemma shr_iter (X : Z) (n : nat) :
  0 <= X ->
  Nat.iter (S n) shr_1 (Build_shr_record X false false)
  = shr_spec X (Z.of_nat (S n)).
Proof.
  intros HX. induction n as [|n IH].
  - exact (shr_spec_first X HX).
  - change (Nat.iter (S (S n)) shr_1 ?x) with (shr_1 (Nat.iter (S n) shr_1 x)).
    rewrite IH, shr_spec_step by lia. f_equal. lia.
Qed.

Lemma shr_exact (X e n : Z) :
  0 <= X -> 0 < n ->
  shr (Build_shr_record X false false) e n = (shr_spec X n, e + n).
Proof.
  intros HX Hn. destruct n as [|p|p]; try lia.
  cbn [shr]. rewrite iter_pos_nat.
  destruct (Pos2Nat.is_succ p) as [k Hk]. rewrite Hk, shr_iter by assumption.
  rewrite <- Hk, positive_nat_Z. reflexivity.
Qed.

(** *** Rounding to nearest even *)

Lemma rne_exact (X : Z) : rne X 0 = X.
Proof.
  unfold rne. rewrite Z.pow_0_r, Z.mod_1_r, Z.div_1_r. reflexivity.
Qed.

Lemma rne_shr_spec (X n : Z) :
  0 <= X -> 1 <= n ->
  round_nearest_even (shr_m (shr_spec X n)) (loc_of_shr_record (shr_spec X n))
  = rne X n.
Proof.
  intros HX Hn. unfold shr_spec, rne. cbn [shr_m loc_of_shr_record].
  assert (Hp : 0 < 2 ^ (n - 1)) by (apply Z.pow_pos_nonneg; lia).
  assert (Hn2 : 2 ^ n = 2 ^ (n - 1) * 2).
  { replace n with (n - 1 + 1) at 1 by lia.
    rewrite Z.pow_add_r, Z.pow_1_r by lia. reflexivity. }
  pose proof (Z.mod_pos_bound X (2 ^ (n - 1)) Hp) as Hlow.
  pose proof (Z.mod_pos_bound (X / 2 ^ (n - 1)) 2 ltac:(lia)) as Hbit.
  assert (Hmod : X mod 2 ^ n
                 = X mod 2 ^ (n - 1) + 2 ^ (n - 1) * ((X / 2 ^ (n - 1)) mod 2)).
  { rewrite Hn2. apply Z.rem_mul_r; lia. }
  rewrite (Zodd_mod (X / 2 ^ (n - 1))).
  destruct (Z.eqb_spec ((X / 2 ^ (n - 1)) mod 2) 1) as [H1|H1];
    destruct (Z.eqb_spec (X mod 2 ^ (n - 1)) 0) as [H0|H0]; cbn [negb];
    cbn [round_nearest_even].
  - assert (Hc : (2 * (X mod 2 ^ n) ?= 2 ^ n) = Eq) by (apply Z.compare_eq_iff; nia).
    rewrite Hc. reflexivity.
  - assert (Hc : (2 * (X mod 2 ^ n) ?= 2 ^ n) = Gt) by (apply Z.compare_gt_iff; nia).
    rewrite Hc. reflexivity.
  - assert (Hc : (2 * (X mod 2 ^ n) ?= 2 ^ n) = Lt) by (apply Z.compare_lt_iff; nia).
    rewrite Hc. reflexivity.
  - assert (Hc : (2 * (X mod 2 ^ n) ?= 2 ^ n) = Lt) by (apply Z.compare_lt_iff; nia).
    rewrite Hc. reflexivity.
Qed.

Lemma rne_floor (X n : Z) : X / 2 ^ n <= rne X n <= X / 2 ^ n + 1.
Proof.
  unfold rne. destruct (2 * (X mod 2 ^ n) ?= 2 ^ n); [|lia|lia].
  destruct (Z.even (X / 2 ^ n)); lia.
Qed.

Lemma rne_error (X n : Z) :
  0 <= n -> 2 * Z.abs (rne X n * 2 ^ n - X) <= 2 ^ n.
Proof.
  intros Hn. unfold rne.
  assert (Hp : 0 < 2 ^ n) by (apply Z.pow_pos_nonneg; lia).
  pose proof (Z.mod_pos_bound X (2 ^ n) Hp) as Hr.
  pose proof (Z.div_mod X (2 ^ n) ltac:(lia)) as Hdm.
  destruct (Z.compare_spec (2 * (X mod 2 ^ n)) (2 ^ n)) as [Hc|Hc|Hc].
  - destruct (Z.even (X / 2 ^ n)); nia.
  - nia.
  - nia.
Qed.

Lemma rne_mul_pow2 (Y a n : Z) :
  0 <= a <= n -> rne (Y * 2 ^ a) n = rne Y (n - a).
Proof.
  intros Han. unfold rne.
  assert (Hpa : 0 < 2 ^ a) by (apply Z.pow_pos_nonneg; lia).
  assert (Hpn : 0 < 2 ^ (n - a)) by (apply Z.pow_pos_nonneg; lia).
  assert (Hn : 2 ^ n = 2 ^ (n - a) * 2 ^ a).
  { rewrite <- Z.pow_add_r by lia. f_equal. lia. }
  rewrite Hn, Z.div_mul_cancel_r, Z.mul_mod_distr_r by lia.
  replace (2 * (Y mod 2 ^ (n - a) * 2 ^ a))
    with (2 * (Y mod 2 ^ (n - a)) * 2 ^ a) by ring.
  rewrite <- (Zmult_compare_compat_r _ _ (2 ^ a)) by lia.
  reflexivity.
Qed.

Lemma rne_lt_pow (X n k : Z) :
  0 <= n <= k -> 0 <= X < 2 ^ k -> 0 <= rne X n <= 2 ^ (k - n).
Proof.
  intros Hnk HX.
  assert (Hpn : 0 < 2 ^ n) by (apply Z.pow_pos_nonneg; lia).
  assert (Hk : 2 ^ k = 2 ^ (k - n) * 2 ^ n).
  { rewrite <- Z.pow_add_r by lia. f_equal. lia. }
  pose proof (rne_floor X n) as [Hl Hu].
  assert (0 <= X / 2 ^ n) by (apply Z.div_pos; lia).
  assert (X / 2 ^ n < 2 ^ (k - n)).
  { apply Z.div_lt_upper_bound; [assumption|]. rewrite Z.mul_comm, <- Hk. lia. }
  lia.
Qed.

Lemma rne_ge_pow (X n k : Z) :
  0 <= n <= k -> 2 ^ k <= X -> 2 ^ (k - n) <= rne X n.
Proof.
  intros Hnk HX.
  assert (Hpn : 0 < 2 ^ n) by (apply Z.pow_pos_nonneg; lia).
  assert (Hk : 2 ^ k = 2 ^ (k - n) * 2 ^ n).
  { rewrite <- Z.pow_add_r by lia. f_equal. lia. }
  pose proof (rne_floor X n) as [Hl Hu].
  assert (2 ^ (k - n) <= X / 2 ^ n).
  { apply Z.div_le_lower_bound; [assumption|]. rewrite Z.mul_comm, <- Hk. lia. }
  lia.
Qed.

Lemma shr_nonpos (mrs : shr_record) (e n : Z) : n <= 0 -> shr mrs e n = (mrs, e).
Proof. intros Hn. destruct n; try reflexivity. lia. Qed.

Lemma rne_small (X n : Z) : 0 <= X -> 2 * X < 2 ^ n -> rne X n = 0.
Proof.
  intros HX Hs. unfold rne.
  rewrite Z.mod_small, Z.div_small by lia.
  apply Z.compare_lt_iff in Hs. rewrite Hs. reflexivity.
Qed.

Lemma Zdigits2_le (p : positive) (k : Z) :
  Zpos p < 2 ^ k -> Zdigits2 (Zpos p) <= k.
Proof.
  intros Hk. pose proof (Zdigits2_bounds p) as [Hl _].
  pose proof (Zdigits2_pos p) as Hd.
  destruct (Z.le_gt_cases (Zdigits2 (Zpos p)) k) as [|Hgt]; [assumption|].
  assert (0 <= k).
  { destruct (Z.le_gt_cases 0 k); [assumption|].
    rewrite Z.pow_neg_r in Hk by lia. lia. }
  assert (2 ^ k <= 2 ^ (Zdigits2 (Zpos p) - 1)) by (apply Z.pow_le_mono_r; lia).
  lia.
Qed.

Lemma pos_iter_xO (m d : positive) :
  Zpos (Pos.iter xO m d) = Zpos m * 2 ^ Zpos d.
Proof.
  induction d as [|d IH] using Pos.peano_ind.
  - cbn [Pos.iter]. rewrite Z.pow_1_r. lia.
  - rewrite Pos.iter_succ, Pos2Z.inj_xO, IH, Pos2Z.inj_succ, Z.pow_succ_r by lia.
    ring.
Qed.

Lemma shl_align_spec (m : positive) (e t : Z) :
  exists mz : positive,
    shl_align m e t = (mz, Z.min e t) /\
    Zpos mz = Zpos m * 2 ^ (e - Z.min e t).
Proof.
  unfold shl_align. destruct (t - e) as [|d|d] eqn:Hd.
  - exists m. rewrite Z.min_l by lia.
    rewrite Z.sub_diag, Z.pow_0_r, Z.mul_1_r. split; reflexivity.
  - exists m. rewrite Z.min_l by lia.
    rewrite Z.sub_diag, Z.pow_0_r, Z.mul_1_r. split; reflexivity.
  - exists (Pos.iter xO m d). rewrite Z.min_r by lia.
    split; [reflexivity|]. rewrite pos_iter_xO. f_equal. f_equal. lia.
Qed.

Lemma Zdigits2_mono (p q : positive) :
  Zpos p <= Zpos q -> Zdigits2 (Zpos p) <= Zdigits2 (Zpos q).
Proof.
  intros Hpq. apply Zdigits2_le.
  pose proof (Zdigits2_bounds q). lia.
Qed.

Lemma Zdigits2_mul (p q : positive) :
  Zdigits2 (Zpos p) + Zdigits2 (Zpos q) - 1 <= Zdigits2 (Zpos (p * q))
  <= Zdigits2 (Zpos p) + Zdigits2 (Zpos q).
Proof.
  pose proof (Zdigits2_bounds p) as [Hpl Hpu].
  pose proof (Zdigits2_bounds q) as [Hql Hqu].
  pose proof (Zdigits2_bounds (p * q)) as [Hl Hu].
  pose proof (Zdigits2_pos p) as Hdp. pose proof (Zdigits2_pos q) as Hdq.
  pose proof (Zdigits2_pos (p * q)) as Hd.
  set (dp := Zdigits2 (Zpos p)) in *. set (dq := Zdigits2 (Zpos q)) in *.
  set (d := Zdigits2 (Zpos (p * q))) in *.
  rewrite Pos2Z.inj_mul in *.
  assert (E1 : 2 ^ (dp - 1) * 2 ^ (dq - 1) = 2 ^ (dp + dq - 2)).
  { rewrite <- Z.pow_add_r by lia. f_equal. lia. }
  assert (E2 : 2 ^ dp * 2 ^ dq = 2 ^ (dp + dq)).
  { rewrite <- Z.pow_add_r by lia. reflexivity. }
  assert (0 < 2 ^ (dp - 1)) by (apply Z.pow_pos_nonneg; lia).
  assert (0 < 2 ^ (dq - 1)) by (apply Z.pow_pos_nonneg; lia).
  split.
  - destruct (Z.le_gt_cases (dp + dq - 1) d) as [|Hgt]; [assumption|].
    assert (2 ^ d <= 2 ^ (dp + dq - 2)) by (apply Z.pow_le_mono_r; lia).
    nia.
  - destruct (Z.le_gt_cases d (dp + dq)) as [|Hgt]; [assumption|].
    assert (2 ^ (dp + dq) <= 2 ^ (d - 1)) by (apply Z.pow_le_mono_r; lia).
    nia.
Qed.

(** ** Properties of the rounding functions

    The lemmas of this part hold at every format with at least one bit of
    precision and [emax] at least 2. *)

Section Rounding.

Variables prec emax : Z.
Hypothesis prec_pos : 0 < prec.
Hypothesis emax_big : 2 <= emax.

Local Abbreviation fexp := (fexp prec emax).
Local Abbreviation emin := (emin prec emax).
Local Abbreviation bra := (binary_round_aux prec emax).

(** *** [binary_round_aux] on an exact significand *)

Lemma shr_fexp_exact (X E : Z) :
  0 <= X ->
  let n := Z.max 0 (fexp (Zdigits2 X + E) - E) in
  exists mrs,
    shr_fexp prec emax X E loc_Exact = (mrs, E + n) /\
    round_nearest_even (shr_m mrs) (loc_of_shr_record mrs) = rne X n.
Proof using prec_pos emax_big.
  intros HX n. unfold shr_fexp. cbn [shr_record_of_loc].
  destruct (Z.ltb_spec 0 (fexp (Zdigits2 X + E) - E)) as [Hlt|Hle].
  - rewrite shr_exact by assumption. subst n. rewrite Z.max_r by lia.
    eexists; split; [f_equal; lia|]. apply rne_shr_spec; lia.
  - rewrite shr_nonpos by assumption. subst n. rewrite Z.max_l by lia.
    eexists; split; [f_equal; lia|]. cbn. rewrite rne_exact. reflexivity.
Qed.

Lemma bra_exact (s : bool) (X E : Z) :
  0 <= X ->
  let n := Z.max 0 (fexp (Zdigits2 X + E) - E) in
  bra s X E loc_Exact = finish prec emax s (rne X n) (E + n).
Proof using prec_pos emax_big.
  intros HX n. unfold binary_round_aux, finish.
  destruct (shr_fexp_exact X E HX) as (mrs & -> & ->).
  reflexivity.
Qed.

(** Trailing zeros of the significand below the target exponent do not
    change the result. *)
Lemma bra_mul_pow2 (s : bool) (X Y : positive) (E a : Z) :
  0 <= a -> Zpos X = Zpos Y * 2 ^ a ->
  E + a <= fexp (Zdigits2 (Zpos X) + E) ->
  bra s (Zpos X) E loc_Exact = bra s (Zpos Y) (E + a) loc_Exact.
Proof using prec_pos emax_big.
  intros Ha HXY Ht. rewrite !bra_exact by lia.
  rewrite (Zdigits2_mul_pow2 Y X a Ha HXY) in *.
  replace (Zdigits2 (Zpos Y) + (E + a)) with (Zdigits2 (Zpos Y) + a + E) by lia.
  set (t := fexp (Zdigits2 (Zpos Y) + a + E)) in *.
  rewrite !Z.max_r by lia. rewrite HXY, rne_mul_pow2 by lia.
  f_equal; [f_equal|]; lia.
Qed.

Lemma shr_fexp_m (X E : Z) :
  0 <= X ->
  let n := Z.max 0 (fexp (Zdigits2 X + E) - E) in
  exists mrs,
    shr_fexp prec emax X E loc_Exact = (mrs, E + n) /\ shr_m mrs = X / 2 ^ n.
Proof using prec_pos emax_big.
  intros HX n. unfold shr_fexp. cbn [shr_record_of_loc].
  destruct (Z.ltb_spec 0 (fexp (Zdigits2 X + E) - E)) as [Hlt|Hle].
  - rewrite shr_exact by assumption. subst n. rewrite Z.max_r by lia.
    eexists; split; [f_equal; lia|]. reflexivity.
  - rewrite shr_nonpos by assumption. subst n. rewrite Z.max_l by lia.
    eexists; split; [f_equal; lia|]. cbn [shr_m].
    rewrite Z.pow_0_r, Z.div_1_r. reflexivity.
Qed.

Lemma finish_zero (s : bool) (e : Z) : finish prec emax s 0 e = S754_zero s.
Proof using prec_pos emax_big.
  unfold finish. destruct (shr_fexp_m 0 e ltac:(lia)) as (mrs & -> & Hm).
  rewrite Hm, Z.div_0_l; [reflexivity|].
  apply Z.pow_nonzero; lia.
Qed.

Lemma finish_canonical (s : bool) (m : positive) (e : Z) :
  canonical_mantissa prec emax m e = true ->
  finish prec emax s (Zpos m) e
  = if e <=? emax - prec then S754_finite s m e else S754_infinity s.
Proof using prec_pos emax_big.
  intros Hc. unfold canonical_mantissa in Hc. apply Z.eqb_eq in Hc.
  unfold finish. destruct (shr_fexp_m (Zpos m) e ltac:(lia)) as (mrs & -> & Hm).
  change (Zdigits2 (Zpos m)) with (Zpos (digits2_pos m)) in *.
  rewrite Hc, Z.sub_diag in *. cbn [Z.max] in *.
  rewrite Z.pow_0_r, Z.div_1_r in Hm. rewrite Hm, Z.add_0_r. reflexivity.
Qed.

Lemma finish_carry (s : bool) (e : Z) :
  emin <= e ->
  exists m : positive,
    Zpos m = 2 ^ (prec - 1) /\
    canonical_mantissa prec emax m (e + 1) = true /\
    finish prec emax s (2 ^ prec) e
    = if e + 1 <=? emax - prec then S754_finite s m (e + 1)
      else S754_infinity s.
Proof using prec_pos emax_big.
  intros He.
  assert (Hp1 : 0 < 2 ^ (prec - 1)) by (apply Z.pow_pos_nonneg; lia).
  assert (Hp : 2 ^ prec = 2 ^ (prec - 1) * 2).
  { replace prec with (prec - 1 + 1) at 1 by lia.
    rewrite Z.pow_add_r, Z.pow_1_r by lia. reflexivity. }
  destruct (2 ^ (prec - 1)) as [|m|m] eqn:Hm; try lia.
  destruct (2 ^ prec) as [|M|M] eqn:HM; try lia.
  assert (HdM : Zdigits2 (Zpos M) = prec + 1).
  { apply Zdigits2_unique. replace (prec + 1 - 1) with prec by lia.
    rewrite Z.pow_add_r, Z.pow_1_r by lia. lia. }
  assert (Hdm : Zdigits2 (Zpos m) = prec).
  { apply Zdigits2_unique. rewrite Hm. lia. }
  exists m. split; [reflexivity|]. split.
  - unfold canonical_mantissa. apply Z.eqb_eq.
    change (Zpos (digits2_pos m)) with (Zdigits2 (Zpos m)). rewrite Hdm.
    unfold SpecFloat.fexp. fold emin. lia.
  - unfold finish.
    destruct (shr_fexp_m (Zpos M) e ltac:(lia)) as (mrs & -> & Hs).
    rewrite HdM in *.
    assert (Hf : fexp (prec + 1 + e) = e + 1).
    { unfold SpecFloat.fexp. fold emin. lia. }
    rewrite Hf in *. replace (e + 1 - e) with 1 in * by lia.
    change (Z.max 0 1) with 1 in *. rewrite Z.pow_1_r in Hs.
    rewrite Hs, Hp, Z.div_mul by lia. reflexivity.
Qed.

(** What [binary_round_aux] returns on an exact significand given at an
    exponent not above its target exponent. *)
Lemma bra_spec (s : bool) (X : positive) (E : Z) :
  E <= fexp (Zdigits2 (Zpos X) + E) ->
  let t := fexp (Zdigits2 (Zpos X) + E) in
  let q := rne (Zpos X) (t - E) in
  (q = 0 /\ bra s (Zpos X) E loc_Exact = S754_zero s) \/
  (exists (m : positive) (e' : Z),
      t <= e' <= t + 1 /\ Zpos m * 2 ^ (e' - t) = q /\
      canonical_mantissa prec emax m e' = true /\
      bra s (Zpos X) E loc_Exact
      = if e' <=? emax - prec then S754_finite s m e' else S754_infinity s).
Proof using prec_pos emax_big.
  intros Ht t q. rewrite bra_exact by lia. fold t.
  rewrite Z.max_r by lia. replace (E + (t - E)) with t by lia. fold q.
  pose proof (Zdigits2_bounds X) as [HXl HXu].
  pose proof (Zdigits2_pos X) as Hd.
  set (d := Zdigits2 (Zpos X)) in *.
  assert (Hcan : forall m : positive,
             Zpos m = q -> Zdigits2 (Zpos m) <= prec ->
             Zdigits2 (Zpos m) = prec \/ t = emin -> emin <= t ->
             canonical_mantissa prec emax m t = true).
  { intros m Hm Hdm Hor Hemin. unfold canonical_mantissa. apply Z.eqb_eq.
    change (Zpos (digits2_pos m)) with (Zdigits2 (Zpos m)).
    unfold SpecFloat.fexp. fold emin. lia. }
  assert (Hfin : forall m : positive,
             Zpos m = q -> canonical_mantissa prec emax m t = true ->
             exists (m0 : positive) (e' : Z),
               t <= e' <= t + 1 /\ Zpos m0 * 2 ^ (e' - t) = q /\
               canonical_mantissa prec emax m0 e' = true /\
               finish prec emax s q t
               = if e' <=? emax - prec then S754_finite s m0 e'
                 else S754_infinity s).
  { intros m Hm Hc. exists m, t. rewrite <- Hm, finish_canonical by assumption.
    rewrite Z.sub_diag, Z.pow_0_r, Z.mul_1_r. repeat split; trivial; lia. }
  destruct (Z.le_gt_cases emin (d + E - prec)) as [Hnorm|Hsub].
  - (* normal range *)
    assert (Htv : t = d + E - prec) by (unfold t, SpecFloat.fexp; fold emin; lia).
    assert (Hlo : 2 ^ (prec - 1) <= q).
    { replace (prec - 1) with (d - 1 - (t - E)) by lia.
      apply rne_ge_pow; lia. }
    assert (Hhi : q <= 2 ^ prec).
    { replace prec with (d - (t - E)) at 1 by lia.
      apply rne_lt_pow; lia. }
    assert (Hp1 : 0 < 2 ^ (prec - 1)) by (apply Z.pow_pos_nonneg; lia).
    right. destruct (Z.eq_dec q (2 ^ prec)) as [Hq|Hq].
    + rewrite Hq. destruct (finish_carry s t ltac:(lia)) as (m & Hm & Hc & ->).
      exists m, (t + 1). replace (t + 1 - t) with 1 by lia.
      rewrite Z.pow_1_r, Hm.
      replace prec with (prec - 1 + 1) at 2 by lia.
      rewrite Z.pow_add_r, Z.pow_1_r by lia. repeat split; trivial; lia.
    + destruct q as [|m|m] eqn:Hm; try lia.
      apply (Hfin m eq_refl).
      assert (Zdigits2 (Zpos m) = prec) by (apply Zdigits2_unique; lia).
      apply (Hcan m eq_refl); lia.
  - (* subnormal range *)
    assert (Htv : t = emin) by (unfold t, SpecFloat.fexp; fold emin; lia).
    destruct (Z.le_gt_cases (t - E) d) as [Hnd|Hnd].
    + assert (Hhi : 0 <= q <= 2 ^ (d - (t - E))) by (apply rne_lt_pow; lia).
      assert (2 ^ (d - (t - E)) <= 2 ^ (prec - 1)) by (apply Z.pow_le_mono_r; lia).
      assert (2 ^ (prec - 1) < 2 ^ prec) by (apply Z.pow_lt_mono_r; lia).
      destruct q as [|m|m] eqn:Hm; try lia.
      * left. split; [reflexivity|apply finish_zero].
      * right. apply (Hfin m eq_refl).
        assert (Zdigits2 (Zpos m) <= prec) by (apply Zdigits2_le; lia).
        apply (Hcan m eq_refl); lia.
    + left. assert (Hq : q = 0).
      { apply rne_small; [lia|].
        assert (2 ^ (d + 1) <= 2 ^ (t - E)) by (apply Z.pow_le_mono_r; lia).
        rewrite Z.pow_add_r, Z.pow_1_r in * by lia. lia. }
      rewrite Hq. split; [reflexivity|apply finish_zero].
Qed.

Lemma bra_valid (s : bool) (X : positive) (E : Z) :
  E <= fexp (Zdigits2 (Zpos X) + E) ->
  valid_binary prec emax (bra s (Zpos X) E loc_Exact) = true.
Proof using prec_pos emax_big.
  intros Ht. destruct (bra_spec s X E Ht) as [[_ ->]|(m & e' & _ & _ & Hc & ->)].
  - reflexivity.
  - destruct (Z.leb_spec e' (emax - prec)) as [Hle|Hgt]; [|reflexivity].
    cbn [valid_binary]. unfold bounded. rewrite Hc. apply Z.leb_le in Hle.
    rewrite Hle. reflexivity.
Qed.

Lemma bra_canonical (s : bool) (m : positive) (e : Z) :
  bounded prec emax m e = true ->
  bra s (Zpos m) e loc_Exact = S754_finite s m e.
Proof using prec_pos emax_big.
  intros Hb. unfold bounded in Hb. apply andb_true_iff in Hb as [Hc Hle].
  rewrite bra_exact by lia.
  pose proof Hc as Hc'. unfold canonical_mantissa in Hc'. apply Z.eqb_eq in Hc'.
  change (Zdigits2 (Zpos m)) with (Zpos (digits2_pos m)).
  rewrite Hc', Z.sub_diag. cbn [Z.max]. rewrite rne_exact, Z.add_0_r.
  rewrite finish_canonical, Hle by assumption. reflexivity.
Qed.

(** *** [binary_round] and [shl_align] *)

Lemma fexp_mono (a b : Z) : a <= b -> fexp a <= fexp b.
Proof. unfold SpecFloat.fexp. lia. Qed.

Lemma binary_round_bra (s : bool) (m : positive) (e : Z) :
  exists mz : positive,
    let ez := Z.min e (fexp (Zdigits2 (Zpos m) + e)) in
    Zpos mz = Zpos m * 2 ^ (e - ez) /\
    ez <= fexp (Zdigits2 (Zpos mz) + ez) /\
    binary_round prec emax s m e = bra s (Zpos mz) ez loc_Exact.
Proof using prec_pos emax_big.
  unfold binary_round.
  change (Zpos (digits2_pos m)) with (Zdigits2 (Zpos m)).
  destruct (shl_align_spec m e (fexp (Zdigits2 (Zpos m) + e)))
    as (mz & -> & Hmz).
  exists mz. cbv zeta. split; [assumption|]. split; [|reflexivity].
  set (t := fexp (Zdigits2 (Zpos m) + e)) in *.
  assert (Ha : 0 <= e - Z.min e t) by lia.
  rewrite (Zdigits2_mul_pow2 m mz (e - Z.min e t) Ha Hmz).
  replace (Zdigits2 (Zpos m) + (e - Z.min e t) + Z.min e t)
    with (Zdigits2 (Zpos m) + e) by lia.
  fold t. lia.
Qed.

Lemma binary_round_valid (s : bool) (m : positive) (e : Z) :
  valid_binary prec emax (binary_round prec emax s m e) = true.
Proof using prec_pos emax_big.
  destruct (binary_round_bra s m e) as (mz & _ & Hle & ->).
  apply bra_valid. exact Hle.
Qed.

(** A significand given at or below its target exponent is rounded as it
    is. *)
Lemma binary_round_no_shift (s : bool) (m : positive) (e : Z) :
  e <= fexp (Zdigits2 (Zpos m) + e) ->
  binary_round prec emax s m e = bra s (Zpos m) e loc_Exact.
Proof using prec_pos emax_big.
  intros He. unfold binary_round.
  change (Zpos (digits2_pos m)) with (Zdigits2 (Zpos m)).
  unfold shl_align.
  destruct (fexp (Zdigits2 (Zpos m) + e) - e) eqn:Hd; try reflexivity. lia.
Qed.

Lemma binary_round_canonical (s : bool) (m : positive) (e : Z) :
  bounded prec emax m e = true ->
  binary_round prec emax s m e = S754_finite s m e.
Proof using prec_pos emax_big.
  intros Hb. rewrite binary_round_no_shift; [apply bra_canonical, Hb|].
  unfold bounded, canonical_mantissa in Hb.
  apply andb_true_iff in Hb as [Hc _]. apply Z.eqb_eq in Hc.
  change (Zpos (digits2_pos m)) with (Zdigits2 (Zpos m)) in Hc. lia.
Qed.

Lemma binary_normalize_valid (m e : Z) (sz : bool) :
  valid_binary prec emax (binary_normalize prec emax m e sz) = true.
Proof using prec_pos emax_big.
  destruct m; cbn [binary_normalize]; [reflexivity| |]; apply binary_round_valid.
Qed.

(** A significand of [prec] bits at an exponent in range is a float. *)
Lemma bounded_normal (Y : positive) (E : Z) :
  Zdigits2 (Zpos Y) = prec -> emin <= E <= emax - prec ->
  bounded prec emax Y E = true.
Proof using prec_pos emax_big.
  intros Hd HE. unfold bounded, canonical_mantissa.
  change (Zpos (digits2_pos Y)) with (Zdigits2 (Zpos Y)). rewrite Hd.
  apply andb_true_iff. split; [apply Z.eqb_eq|apply Z.leb_le; lia].
  unfold SpecFloat.fexp. fold emin. lia.
Qed.

(** A significand that is a [prec]-bit integer followed by zeros rounds
    to that integer, exactly. *)
Lemma bra_exact_normal (s : bool) (X Y : positive) (E a : Z) :
  0 <= a -> Zpos X = Zpos Y * 2 ^ a ->
  Zdigits2 (Zpos Y) = prec -> emin <= E + a <= emax - prec ->
  bra s (Zpos X) E loc_Exact = S754_finite s Y (E + a).
Proof using prec_pos emax_big.
  intros Ha HXY Hd HE.
  rewrite (bra_mul_pow2 s X Y E a Ha HXY).
  - apply bra_canonical, bounded_normal; assumption.
  - rewrite (Zdigits2_mul_pow2 Y X a Ha HXY), Hd.
    unfold SpecFloat.fexp. lia.
Qed.

(** Every integer of at most [prec] bits has a [prec]-bit multiple by a
    power of two. *)
Lemma normalise (K : positive) :
  Zdigits2 (Zpos K) <= prec ->
  exists Y : positive,
    Zpos Y = Zpos K * 2 ^ (prec - Zdigits2 (Zpos K)) /\
    Zdigits2 (Zpos Y) = prec.
Proof using prec_pos emax_big.
  intros Hd.
  assert (Hp : 0 < 2 ^ (prec - Zdigits2 (Zpos K)))
    by (apply Z.pow_pos_nonneg; lia).
  destruct (Zpos K * 2 ^ (prec - Zdigits2 (Zpos K))) as [|Y|Y] eqn:HY; try lia.
  exists Y. split; [reflexivity|].
  rewrite (Zdigits2_mul_pow2 K Y (prec - Zdigits2 (Zpos K))); [lia|lia|].
  symmetry. exact HY.
Qed.

(** Rounding an integer of at most [prec] bits, in the normal range,
    only normalises it. *)
Lemma binary_round_widen (s : bool) (K : positive) (e : Z) :
  Zdigits2 (Zpos K) <= prec ->
  emin <= e - (prec - Zdigits2 (Zpos K)) ->
  e - (prec - Zdigits2 (Zpos K)) <= emax - prec ->
  exists Y : positive,
    Zpos Y = Zpos K * 2 ^ (prec - Zdigits2 (Zpos K)) /\
    Zdigits2 (Zpos Y) = prec /\
    binary_round prec emax s K e
    = S754_finite s Y (e - (prec - Zdigits2 (Zpos K))).
Proof using prec_pos emax_big.
  intros Hd Hlo Hhi. destruct (normalise K Hd) as (Y & HY & HdY).
  exists Y. split; [assumption|]. split; [assumption|].
  destruct (binary_round_bra s K e) as (mz & Hmz & _ & ->). cbv zeta in Hmz.
  set (a := prec - Zdigits2 (Zpos K)) in *.
  assert (Hf : fexp (Zdigits2 (Zpos K) + e) = e - a)
    by (unfold SpecFloat.fexp; fold emin; lia).
  rewrite Hf in *. rewrite Z.min_r in * by lia.
  replace (e - (e - a)) with a in Hmz by lia.
  assert (mz = Y) by lia. subst mz.
  apply bra_canonical, bounded_normal; [assumption|lia].
Qed.

Lemma convert_valid (x : spec_float) :
  valid_binary prec emax (convert prec emax x) = true.
Proof using prec_pos emax_big.
  destruct x; cbn [convert valid_binary]; try reflexivity.
  apply binary_round_valid.
Qed.

Lemma SFadd_valid (x y : spec_float) :
  valid_binary prec emax x = true -> valid_binary prec emax y = true ->
  valid_binary prec emax (SFadd prec emax x y) = true.
Proof using prec_pos emax_big.
  intros Hx Hy.
  destruct x as [sx|sx| |sx mx ex], y as [sy|sy| |sy my ey];
    cbn [SFadd]; try reflexivity; try assumption;
    try (destruct sx, sy; reflexivity).
  apply binary_normalize_valid.
Qed.

End Rounding.

(** ** The two formats of the program *)

Ltac format_lia := unfold fexp, emin in *; lia.

Lemma is_double_finite (s : bool) (m : positive) (e : Z) :
  is_double (S754_finite s m e) ->
  Zdigits2 (Zpos m) <= 53 /\
  fexp 53 1024 (Zdigits2 (Zpos m) + e) = e /\
  -1074 <= e <= 971.
Proof.
  unfold is_double, in_format. cbn [valid_binary]. unfold bounded.
  intros H. apply andb_true_iff in H as [Hc Hle].
  unfold canonical_mantissa in Hc. apply Z.eqb_eq in Hc. apply Z.leb_le in Hle.
  change (Zpos (digits2_pos m)) with (Zdigits2 (Zpos m)) in Hc.
  repeat split; try assumption; format_lia.
Qed.

Lemma to_double_valid (x : long_double) : is_double (to_double x).
Proof. apply convert_valid; lia. Qed.

Lemma dadd_valid (x y : double) :
  is_double x -> is_double y -> is_double (dadd x y).
Proof. apply SFadd_valid; lia. Qed.

(** A [double] converts to [long double] without rounding: its
    significand is extended to 64 bits. *)
Lemma to_long_double_finite (s : bool) (m : positive) (e : Z) :
  is_double (S754_finite s m e) ->
  exists Y : positive,
    Zpos Y = Zpos m * 2 ^ (64 - Zdigits2 (Zpos m)) /\
    Zdigits2 (Zpos Y) = 64 /\
    to_long_double (S754_finite s m e)
    = S754_finite s Y (e - (64 - Zdigits2 (Zpos m))).
Proof.
  intros Hx. apply is_double_finite in Hx as (Hd & Hf & He).
  pose proof (Zdigits2_pos m).
  apply (binary_round_widen 64 16384); format_lia.
Qed.

(** Converting a [double] to [long double] and back gives the [double]. *)
Lemma to_double_to_long_double (x : double) :
  is_double x -> to_double (to_long_double x) = x.
Proof.
  intros Hx. destruct x as [s|s| |s m e]; try reflexivity.
  destruct (to_long_double_finite s m e Hx) as (Y & HY & HdY & ->).
  pose proof (is_double_finite s m e Hx) as (Hd & Hf & He).
  pose proof (Zdigits2_pos m) as Hdp.
  set (d := Zdigits2 (Zpos m)) in *.
  unfold to_double. cbn [convert].
  rewrite binary_round_no_shift by (try rewrite HdY; format_lia).
  rewrite (bra_mul_pow2 53 1024 ltac:(lia) ltac:(lia) s Y m _ (64 - d));
    [|lia|assumption|rewrite HdY; format_lia].
  replace (e - (64 - d) + (64 - d)) with e by lia.
  apply bra_canonical; [lia|lia|exact Hx].
Qed.

(** An integer literal of few bits is a float of either format. *)
Lemma long_literal_pos (c : positive) :
  Zdigits2 (Zpos c) <= 64 ->
  exists Y : positive,
    Zpos Y = Zpos c * 2 ^ (64 - Zdigits2 (Zpos c)) /\
    Zdigits2 (Zpos Y) = 64 /\
    long_literal (Zpos c) = S754_finite false Y (0 - (64 - Zdigits2 (Zpos c))).
Proof.
  intros Hd. pose proof (Zdigits2_pos c).
  apply (binary_round_widen 64 16384); format_lia.
Qed.

Lemma double_of_int_pos (c : positive) :
  Zdigits2 (Zpos c) <= 53 ->
  exists Y : positive,
    Zpos Y = Zpos c * 2 ^ (53 - Zdigits2 (Zpos c)) /\
    Zdigits2 (Zpos Y) = 53 /\
    double_of_int (Zpos c) = S754_finite false Y (0 - (53 - Zdigits2 (Zpos c))).
Proof.
  intros Hd. pose proof (Zdigits2_pos c).
  apply (binary_round_widen 53 1024); format_lia.
Qed.

(** The product of a [double] by a small integer literal, computed in
    [long double] and converted back, is the [double] product: the
    [long double] product is exact. *)
Lemma literal_times_double (c : positive) (x : double) :
  Zdigits2 (Zpos c) <= 11 -> is_double x ->
  to_double (lmul (long_literal (Zpos c)) (to_long_double x))
  = dmul (double_of_int (Zpos c)) x.
Proof.
  intros Hc Hx.
  destruct (long_literal_pos c ltac:(lia)) as (Yc & HYc & HdYc & ->).
  destruct (double_of_int_pos c ltac:(lia)) as (Yc' & HYc' & HdYc' & ->).
  destruct x as [s|s| |s m e]; try reflexivity.
  destruct (to_long_double_finite s m e Hx) as (Y & HY & HdY & ->).
  pose proof (is_double_finite s m e Hx) as (Hd & Hf & He).
  pose proof (Zdigits2_pos m) as Hdp. pose proof (Zdigits2_pos c) as Hcp.
  pose proof (Zdigits2_mul c m) as HdK.
  assert (HdKm : Zdigits2 (Zpos m) <= Zdigits2 (Zpos (c * m))).
  { apply Zdigits2_mono. rewrite Pos2Z.inj_mul. nia. }
  set (d := Zdigits2 (Zpos m)) in *. set (dc := Zdigits2 (Zpos c)) in *.
  set (K := (c * m)%positive) in *. set (dK := Zdigits2 (Zpos K)) in *.
  assert (HfK : e <= fexp 53 1024 (dK + e)).
  { rewrite <- Hf at 1. apply fexp_mono. lia. }
  unfold lmul, dmul. cbn [SFmul xorb].
  (* the [long double] product is exact *)
  destruct (normalise 64 16384 ltac:(lia) ltac:(lia) K ltac:(fold dK; lia))
    as (Y2 & HY2 & HdY2). fold dK in HY2.
  rewrite (bra_exact_normal 64 16384 ltac:(lia) ltac:(lia) s (Yc * Y) Y2 _
             (64 + dK - dc - d)); [|lia| |assumption|format_lia].
  2:{ assert (Hpow : 2 ^ (64 - dc) * 2 ^ (64 - d)
                     = 2 ^ (64 - dK) * 2 ^ (64 + dK - dc - d)).
      { rewrite <- !Z.pow_add_r by lia. f_equal. lia. }
      rewrite Pos2Z.inj_mul, HYc, HY, HY2. unfold K. rewrite Pos2Z.inj_mul.
      transitivity (Zpos c * Zpos m * (2 ^ (64 - dc) * 2 ^ (64 - d))); [ring|].
      rewrite Hpow. ring. }
  (* both sides round the integer [c * m] at exponent [e] *)
  unfold to_double. cbn [convert].
  rewrite binary_round_no_shift by (try rewrite HdY2; format_lia).
  rewrite (bra_mul_pow2 53 1024 ltac:(lia) ltac:(lia) s Y2 K _ (64 - dK));
    [|lia|assumption|].
  2:{ rewrite HdY2.
      replace (64 + (0 - (64 - dc) + (e - (64 - d)) + (64 + dK - dc - d)))
        with (dK + e) by lia.
      lia. }
  rewrite (bra_mul_pow2 53 1024 ltac:(lia) ltac:(lia) s (Yc' * m) K _ (53 - dc));
    [|lia| |].
  - f_equal. lia.
  - rewrite Pos2Z.inj_mul, HYc'. unfold K. rewrite Pos2Z.inj_mul. ring.
  - rewrite (Zdigits2_mul_pow2 K (Yc' * m) (53 - dc)); [|lia|].
    + fold dK. replace (dK + (53 - dc) + (0 - (53 - dc) + e)) with (dK + e) by lia.
      lia.
    + rewrite Pos2Z.inj_mul, HYc'. unfold K. rewrite Pos2Z.inj_mul. ring.
Qed.

(** ** The store *)

Lemma put_same (h : store) (p : ptr) (o : shape) :
  nth_error h p = Some o -> put h p o = h.
Proof.
  revert p. induction h as [|x h IH]; intros [|p] Hp; cbn in *;
    try discriminate.
  - congruence.
  - f_equal. apply IH, Hp.
Qed.

Lemma live_lookup (h : store) (p : ptr) :
  spec.live h p -> exists o, nth_error h p = Some o.
Proof.
  unfold spec.live. intros Hp.
  destruct (nth_error h p) as [o|] eqn:Ho; [exists o; reflexivity|].
  apply nth_error_None in Ho. lia.
Qed.

(** No member function of a shape writes to the object. *)
Lemma get_circumference_this (o : shape) : snd (get_circumference o) = o.
Proof. destruct o; reflexivity. Qed.

Lemma arrow_get_circumference (h : store) (p : ptr) :
  spec.live h p ->
  arrow p get_circumference h = Some (spec.perimeter h p, h).
Proof.
  intros Hp. destruct (live_lookup h p Hp) as [o Ho].
  unfold arrow, spec.perimeter. rewrite Ho.
  pose proof (get_circumference_this o) as Ht.
  destruct (get_circumference o) as [x o']. cbn in *. subst o'.
  rewrite put_same by assumption. reflexivity.
Qed.

Lemma get_circumference_valid (o : shape) :
  is_double (fst (get_circumference o)).
Proof. destruct o; apply to_double_valid. Qed.

Lemma perimeter_valid (h : store) (p : ptr) : is_double (spec.perimeter h p).
Proof.
  unfold spec.perimeter. destruct (nth_error h p) as [o|].
  - apply get_circumference_valid.
  - reflexivity.
Qed.

Lemma fold_valid (h : store) (l : list ptr) (a : double) :
  is_double a ->
  is_double (fold_left (fun acc p => dadd acc (spec.perimeter h p)) l a).
Proof.
  revert a. induction l as [|p l IH]; intros a Ha; cbn [fold_left].
  - exact Ha.
  - apply IH, dadd_valid; [exact Ha|apply perimeter_valid].
Qed.

(** The loop of [scene::get_circumference]: the accumulator always holds
    a [double], and the store is only read. *)
Lemma accumulate_sum (h : store) (l : list ptr) (a : double) :
  Forall (spec.live h) l -> is_double a ->
  accumulate l (to_long_double a)
    (fun (acc : long_double) (b : ptr) =>
       let a := to_double acc in
       c <- arrow b get_circumference ;;
       ret (to_long_double (dadd a c))) h
  = Some (to_long_double
            (fold_left (fun acc p => dadd acc (spec.perimeter h p)) l a), h).
Proof.
  intros Hl. revert a. induction Hl as [|p l Hp Hl IH]; intros a Ha.
  - reflexivity.
  - cbn [accumulate fold_left]. unfold bind at 1. unfold bind at 1.
    rewrite arrow_get_circumference by assumption. unfold ret at 1.
    rewrite to_double_to_long_double by assumption.
    apply IH, dadd_valid; [exact Ha|apply perimeter_valid].
Qed.

Lemma scene_get_circumference_live (h : store) (sc : scene.t) :
  Forall (spec.live h) (scene.shapes_ sc) ->
  scene.get_circumference sc h
  = Some ((spec.left_fold h (scene.shapes_ sc), sc), h).
Proof.
  intros Hl. unfold scene.get_circumference, bind.
  change (long_literal 0) with (to_long_double pzero).
  rewrite accumulate_sum by (assumption || reflexivity).
  unfold ret, spec.left_fold.
  rewrite to_double_to_long_double by (apply fold_valid; reflexivity).
  reflexivity.
Qed.

(** ** The values of the unit shapes *)

Example unit_circle :
  fst (circle.get_circumference {| circle.r_ := double_of_int 1 |})
  = S754_finite false 7074237752028440 (-50).
Proof. vm_compute. reflexivity. Qed.

Example unit_square :
  fst (square.get_circumference {| square.side_ := double_of_int 1 |})
  = double_of_int 4.
Proof. vm_compute. reflexivity. Qed.

Example unit_triangle :
  fst (equilateral_triangle.get_circumference
         {| equilateral_triangle.side_ := double_of_int 1 |})
  = double_of_int 3.
Proof. vm_compute. reflexivity. Qed.

(** The scene of [test_geo]: a unit circle and a unit square. *)
Example unit_scene :
  (p1 <- make_shared (a_circle {| circle.r_ := double_of_int 1 |}) ;;
   p2 <- make_shared (a_square {| square.side_ := double_of_int 1 |}) ;;
   r <- scene.get_circumference
          (snd (scene.add_shape p2 (snd (scene.add_shape p1 scene.new)))) ;;
   ret (fst r)) []
  = Some (S754_finite false 5788918689699468 (-49),
          [a_circle {| circle.r_ := double_of_int 1 |};
           a_square {| square.side_ := double_of_int 1 |}]).
Proof. vm_compute. reflexivity. Qed.

(** ** Construction *)

Lemma dlt_zero (d : double) :
  dlt d (double_of_int 0) = spec.strictly_negative d.
Proof. destruct d as [s|s| |s m e]; try destruct s; reflexivity. Qed.

(** C1.  Each of the three constructors throws
    [dimension_smaller_than_zero] exactly when the dimension is strictly
    negative, and then yields no object; otherwise, and so for every
    dimension that is at least 0, zero included, it yields the object that
    stores the dimension, and the member function of the object leaves the
    stored dimension as it is. *)
Theorem constructors_reject_negative (d : double) :
  (circle.new d
   = if spec.strictly_negative d
     then Throw (dimension_smaller_than_zero
                   "A circle must have a radius of at least 0.")
     else Ok {| circle.r_ := d |}) /\
  (square.new d
   = if spec.strictly_negative d
     then Throw (dimension_smaller_than_zero
                   "A square must have a length of at least 0.")
     else Ok {| square.side_ := d |}) /\
  (equilateral_triangle.new d
   = if spec.strictly_negative d
     then Throw (dimension_smaller_than_zero
                   "An equilateral_triangle must have a length of at least 0.")
     else Ok {| equilateral_triangle.side_ := d |}) /\
  (spec.at_least_zero d = true -> spec.strictly_negative d = false) /\
  spec.strictly_negative pzero = false /\
  (forall c, circle.r_ (snd (circle.get_circumference c)) = circle.r_ c) /\
  (forall s, square.side_ (snd (square.get_circumference s)) = square.side_ s) /\
  (forall t, equilateral_triangle.side_ (snd (equilateral_triangle.get_circumference t))
             = equilateral_triangle.side_ t).
Proof.
  unfold circle.new, square.new, equilateral_triangle.new.
  rewrite dlt_zero.
  repeat split; try reflexivity.
  destruct d as [s|s| |s m e]; try destruct s; cbn; congruence.
Qed.

Lemma constructors_reject_negative_witness :
  circle.new (double_of_int (-1))
  = Throw (dimension_smaller_than_zero
             "A circle must have a radius of at least 0.") /\
  spec.strictly_negative (double_of_int 0) = false.
Proof.
  split.
  - exact (proj1 (constructors_reject_negative (double_of_int (-1)))).
  - apply (proj1 (proj2 (proj2 (proj2
             (constructors_reject_negative (double_of_int 0)))))).
    reflexivity.
Defined.

(** C7.  NaN is not less than 0: each constructor accepts a NaN dimension,
    and the perimeter of the shape it builds is NaN. *)
Theorem nan_dimension_accepted :
  dlt nan (double_of_int 0) = false /\
  circle.new nan = Ok {| circle.r_ := nan |} /\
  square.new nan = Ok {| square.side_ := nan |} /\
  equilateral_triangle.new nan = Ok {| equilateral_triangle.side_ := nan |} /\
  fst (get_circumference (a_circle {| circle.r_ := nan |})) = nan /\
  fst (get_circumference (a_square {| square.side_ := nan |})) = nan /\
  fst (get_circumference
         (a_triangle {| equilateral_triangle.side_ := nan |})) = nan.
Proof. repeat split. Qed.

(** ** Perimeters of squares and triangles *)

(** C3.  The perimeter of a successfully constructed square is the
    [double] product of 4 and its side, and that of a successfully
    constructed equilateral triangle the [double] product of 3 and its
    side: the detour of the code through [long double] adds no rounding. *)
Theorem square_and_triangle_perimeter (side : double) :
  is_double side ->
  (forall sq, square.new side = Ok sq ->
     fst (square.get_circumference sq) = dmul (double_of_int 4) side) /\
  (forall tr, equilateral_triangle.new side = Ok tr ->
     fst (equilateral_triangle.get_circumference tr)
     = dmul (double_of_int 3) side).
Proof.
  intros Hside. split.
  - intros sq Hsq. unfold square.new in Hsq.
    destruct (dlt side (double_of_int 0)); [discriminate|].
    injection Hsq as <-. cbn [square.get_circumference fst square.side_].
    apply (literal_times_double 4); [vm_compute; discriminate|assumption].
  - intros tr Htr. unfold equilateral_triangle.new in Htr.
    destruct (dlt side (double_of_int 0)); [discriminate|].
    injection Htr as <-.
    cbn [equilateral_triangle.get_circumference fst equilateral_triangle.side_].
    apply (literal_times_double 3); [vm_compute; discriminate|assumption].
Qed.

Lemma square_and_triangle_perimeter_witness :
  fst (square.get_circumference {| square.side_ := double_of_int 1 |})
  = dmul (double_of_int 4) (double_of_int 1).
Proof.
  apply (proj1 (square_and_triangle_perimeter (double_of_int 1) eq_refl)).
  reflexivity.
Defined.

(** ** Scenes *)

(** C4.  The perimeter of a scene is the left fold of its sequence, in
    insertion order, from 0.0, adding the perimeter of each shape. *)
Theorem scene_perimeter_is_left_fold (h : store) (sc : scene.t) :
  Forall (spec.live h) (scene.shapes_ sc) ->
  scene.get_circumference sc h
  = Some ((spec.left_fold h (scene.shapes_ sc), sc), h).
Proof. exact (scene_get_circumference_live h sc). Qed.

Lemma scene_perimeter_is_left_fold_witness :
  scene.get_circumference {| scene.shapes_ := [1%nat; 0%nat] |}
    [a_circle {| circle.r_ := double_of_int 1 |};
     a_square {| square.side_ := double_of_int 1 |}]
  = Some ((S754_finite false 5788918689699468 (-49),
           {| scene.shapes_ := [1%nat; 0%nat] |}),
          [a_circle {| circle.r_ := double_of_int 1 |};
           a_square {| square.side_ := double_of_int 1 |}]).
Proof.
  exact (scene_perimeter_is_left_fold
           [a_circle {| circle.r_ := double_of_int 1 |};
            a_square {| square.side_ := double_of_int 1 |}]
           {| scene.shapes_ := [1%nat; 0%nat] |}
           (Forall_cons 1%nat (Nat.lt_succ_diag_r 1)
              (Forall_cons 0%nat (Nat.lt_0_succ 1) (Forall_nil _)))).
Defined.

(** C5.  The perimeter of a scene without shapes is 0.0, and the call
    returns, in every store. *)
Theorem empty_scene_perimeter (h : store) :
  scene.get_circumference scene.new h = Some ((pzero, scene.new), h) /\
  (forall sc, scene.shapes_ sc = [] ->
     scene.get_circumference sc h = Some ((pzero, sc), h)).
Proof.
  split; [reflexivity|]. intros [l] Hl. cbn in Hl. subst l. reflexivity.
Qed.

Lemma empty_scene_perimeter_witness :
  scene.get_circumference {| scene.shapes_ := [] |}
    [a_square {| square.side_ := double_of_int 1 |}]
  = Some ((pzero, {| scene.shapes_ := [] |}),
          [a_square {| square.side_ := double_of_int 1 |}]).
Proof.
  exact (proj2 (empty_scene_perimeter
                  [a_square {| square.side_ := double_of_int 1 |}])
           {| scene.shapes_ := [] |} eq_refl).
Defined.

(** C6.  [add_shape] appends the pointer: the sequence is one longer,
    each element it had is where it was, and the pointer is its last
    element.  The call always returns. *)
Theorem add_shape_appends (sc : scene.t) (s : ptr) :
  let sc' := snd (scene.add_shape s sc) in
  List.length (scene.shapes_ sc') = S (List.length (scene.shapes_ sc)) /\
  (forall i, (i < List.length (scene.shapes_ sc))%nat ->
     nth_error (scene.shapes_ sc') i = nth_error (scene.shapes_ sc) i) /\
  nth_error (scene.shapes_ sc') (List.length (scene.shapes_ sc)) = Some s /\
  last (scene.shapes_ sc') s = s /\
  firstn (List.length (scene.shapes_ sc)) (scene.shapes_ sc') = scene.shapes_ sc.
Proof.
  cbn. repeat split.
  - rewrite length_app. cbn. lia.
  - intros i Hi. apply nth_error_app1, Hi.
  - rewrite nth_error_app2, Nat.sub_diag by lia. reflexivity.
  - apply last_last.
  - rewrite firstn_app, Nat.sub_diag, firstn_all. cbn. apply app_nil_r.
Qed.

Lemma add_shape_appends_witness :
  nth_error (scene.shapes_
               (snd (scene.add_shape 7%nat {| scene.shapes_ := [3%nat] |})))
    0%nat
  = nth_error [3%nat] 0%nat.
Proof.
  exact (proj1 (proj2 (add_shape_appends {| scene.shapes_ := [3%nat] |} 7%nat))
           0%nat (Nat.lt_0_succ 0)).
Defined.

Lemma live_app (h h' : store) (p : ptr) : spec.live h p -> spec.live (h ++ h') p.
Proof. unfold spec.live. rewrite length_app. lia. Qed.

(** Allocating further shapes leaves the perimeter of a live shape as it
    is: no operation writes to an allocated shape. *)
Lemma perimeter_app (h h' : store) (p : ptr) :
  spec.live h p -> spec.perimeter (h ++ h') p = spec.perimeter h p.
Proof.
  intros Hp. unfold spec.perimeter. rewrite nth_error_app1 by exact Hp.
  reflexivity.
Qed.

Lemma left_fold_app_store (h h' : store) (l : list ptr) :
  Forall (spec.live h) l -> spec.left_fold (h ++ h') l = spec.left_fold h l.
Proof.
  unfold spec.left_fold. generalize pzero.
  intros a Hl. revert a. induction Hl as [|p l Hp Hl IH]; intros a.
  - reflexivity.
  - cbn [fold_left]. rewrite perimeter_app by assumption. apply IH.
Qed.

Lemma left_fold_snoc (h : store) (l : list ptr) (p : ptr) :
  spec.left_fold h (l ++ [p])
  = dadd (spec.left_fold h l) (spec.perimeter h p).
Proof. unfold spec.left_fold. rewrite fold_left_app. reflexivity. Qed.

(** C8.  Two calls of [get_circumference] in succession, on a shape or on
    a scene, return the same value, and leave the shape, the scene and the
    store as they were. *)
Theorem queries_repeatable (h : store) :
  (forall o : shape,
     snd (get_circumference o) = o /\
     get_circumference (snd (get_circumference o)) = get_circumference o) /\
  (forall p : ptr, spec.live h p ->
     (x1 <- arrow p get_circumference ;;
      x2 <- arrow p get_circumference ;;
      ret (x1, x2)) h
     = Some ((spec.perimeter h p, spec.perimeter h p), h)) /\
  (forall sc : scene.t, Forall (spec.live h) (scene.shapes_ sc) ->
     (r1 <- scene.get_circumference sc ;;
      r2 <- scene.get_circumference (snd r1) ;;
      ret (r1, r2)) h
     = Some ((spec.left_fold h (scene.shapes_ sc), sc,
              (spec.left_fold h (scene.shapes_ sc), sc)), h)).
Proof.
  split; [|split].
  - intros o. rewrite get_circumference_this. split; reflexivity.
  - intros p Hp. unfold bind.
    rewrite arrow_get_circumference by assumption.
    rewrite arrow_get_circumference by assumption. reflexivity.
  - intros sc Hsc. unfold bind.
    rewrite scene_get_circumference_live by assumption. cbn [snd].
    rewrite scene_get_circumference_live by assumption. reflexivity.
Qed.

Lemma queries_repeatable_witness :
  (x1 <- arrow 0%nat get_circumference ;;
   x2 <- arrow 0%nat get_circumference ;;
   ret (x1, x2)) [a_square {| square.side_ := double_of_int 1 |}]
  = Some ((double_of_int 4, double_of_int 4),
          [a_square {| square.side_ := double_of_int 1 |}]).
Proof.
  apply (proj1 (proj2 (queries_repeatable
                         [a_square {| square.side_ := double_of_int 1 |}]))).
  unfold spec.live. cbn. lia.
Defined.

(** C10.  A shape pointer added to two scenes contributes the same
    perimeter to the sum of each, whatever else the scenes hold, also when
    the scenes are queried one after the other and further shapes are
    allocated in between: allocated shapes are never written to. *)
Theorem shared_shape_same_contribution
    (h : store) (p : ptr) (sc1 sc2 : scene.t) (o : shape) :
  spec.live h p ->
  Forall (spec.live h) (scene.shapes_ sc1) ->
  Forall (spec.live h) (scene.shapes_ sc2) ->
  let sc1' := snd (scene.add_shape p sc1) in
  let sc2' := snd (scene.add_shape p sc2) in
  let c := spec.perimeter h p in
  (r1 <- scene.get_circumference sc1' ;;
   q <- make_shared o ;;
   r2 <- scene.get_circumference sc2' ;;
   ret (fst r1, fst r2)) h
  = Some ((dadd (spec.left_fold h (scene.shapes_ sc1)) c,
           dadd (spec.left_fold h (scene.shapes_ sc2)) c), h ++ [o]).
Proof.
  intros Hp H1 H2 sc1' sc2' c.
  assert (H1' : Forall (spec.live h) (scene.shapes_ sc1')).
  { cbn. apply Forall_app. split; [assumption|]. constructor; [assumption|constructor]. }
  assert (H2' : Forall (spec.live (h ++ [o])) (scene.shapes_ sc2')).
  { cbn. apply Forall_app. split.
    - eapply Forall_impl; [|exact H2]. intros a. apply live_app.
    - constructor; [apply live_app; assumption|constructor]. }
  unfold bind at 1. rewrite scene_get_circumference_live by assumption.
  unfold bind at 1. unfold make_shared at 1.
  unfold bind at 1. rewrite scene_get_circumference_live by assumption.
  unfold ret. cbn [fst]. f_equal. f_equal. f_equal.
  - subst sc1'. cbn [scene.add_shape snd scene.shapes_].
    apply left_fold_snoc.
  - subst sc2'. cbn [scene.add_shape snd scene.shapes_].
    rewrite left_fold_snoc, left_fold_app_store, perimeter_app by assumption.
    reflexivity.
Qed.

Lemma shared_shape_same_contribution_witness :
  (r1 <- scene.get_circumference {| scene.shapes_ := [0%nat; 1%nat] |} ;;
   q <- make_shared (a_triangle {| equilateral_triangle.side_ := double_of_int 1 |}) ;;
   r2 <- scene.get_circumference {| scene.shapes_ := [1%nat] |} ;;
   ret (fst r1, fst r2))
    [a_circle {| circle.r_ := double_of_int 1 |};
     a_square {| square.side_ := double_of_int 1 |}]
  = Some ((S754_finite false 5788918689699468 (-49), double_of_int 4),
          [a_circle {| circle.r_ := double_of_int 1 |};
           a_square {| square.side_ := double_of_int 1 |};
           a_triangle {| equilateral_triangle.side_ := double_of_int 1 |}]).
Proof.
  exact (shared_shape_same_contribution
           [a_circle {| circle.r_ := double_of_int 1 |};
            a_square {| square.side_ := double_of_int 1 |}]
           1%nat {| scene.shapes_ := [0%nat] |} {| scene.shapes_ := [] |}
           (a_triangle {| equilateral_triangle.side_ := double_of_int 1 |})
           (Nat.lt_succ_diag_r 1)
           (Forall_cons 0%nat (Nat.lt_0_succ 1) (Forall_nil _))
           (Forall_nil _)).
Defined.

(** ** Rounding errors, in real numbers *)

Lemma bpow_pos (e : Z) : (0 < bpow e)%R.
Proof. apply powerRZ_lt. lra. Qed.

Lemma bpow_add (a b : Z) : (bpow (a + b) = bpow a * bpow b)%R.
Proof. apply powerRZ_add. lra. Qed.

Lemma bpow_IZR (k : Z) : 0 <= k -> IZR (2 ^ k) = bpow k.
Proof.
  intros Hk. rewrite <- (Z2Nat.id k Hk). unfold bpow.
  rewrite <- pow_IZR, <- pow_powerRZ. reflexivity.
Qed.

Lemma bpow_le (a b : Z) : a <= b -> (bpow a <= bpow b)%R.
Proof.
  intros Hab. replace b with (a + (b - a)) by lia. rewrite bpow_add.
  rewrite <- (bpow_IZR (b - a)) by lia.
  assert (H1 : (1 <= IZR (2 ^ (b - a)))%R).
  { apply IZR_le. assert (0 < 2 ^ (b - a)) by (apply Z.pow_pos_nonneg; lia). lia. }
  pose proof (bpow_pos a). nra.
Qed.

Lemma bpow_half (e : Z) : (bpow (e - 1) = bpow e / 2)%R.
Proof.
  replace e with (e - 1 + 1) at 2 by lia. rewrite bpow_add.
  change (bpow 1) with (2 * 1)%R. lra.
Qed.

Lemma Rabs_sign (s : bool) (x : R) : Rabs (sign s * x) = Rabs x.
Proof.
  destruct s; unfold sign.
  - replace (-1 * x)%R with (- x)%R by ring. apply Rabs_Ropp.
  - f_equal. ring.
Qed.

Lemma rne_error_R (X n : Z) :
  0 <= n -> (Rabs (IZR (rne X n) * bpow n - IZR X) <= bpow n / 2)%R.
Proof.
  intros Hn. pose proof (rne_error X n Hn) as H.
  rewrite <- bpow_IZR, <- mult_IZR, <- minus_IZR, <- abs_IZR by assumption.
  apply IZR_le in H. rewrite mult_IZR in H. lra.
Qed.

Lemma IZR_pos_bounds (p : positive) :
  (bpow (Zdigits2 (Zpos p) - 1) <= IZR (Zpos p) < bpow (Zdigits2 (Zpos p)))%R.
Proof.
  pose proof (Zdigits2_bounds p) as [Hl Hu]. pose proof (Zdigits2_pos p).
  rewrite <- !bpow_IZR by lia. split; [apply IZR_le|apply IZR_lt]; assumption.
Qed.

Lemma bpow_lt_inv (a b : Z) : (bpow a < bpow b)%R -> a < b.
Proof.
  intros H. destruct (Z.lt_ge_cases a b) as [|Hge]; [assumption|].
  pose proof (bpow_le b a ltac:(lia)). lra.
Qed.

(** A number at least [2 ^ k] has its leading bit at position [k] or
    above. *)
Lemma magnitude_ge (m : positive) (e k : Z) :
  (bpow k <= IZR (Zpos m) * bpow e)%R -> k + 1 <= Zdigits2 (Zpos m) + e.
Proof.
  intros H. pose proof (IZR_pos_bounds m) as [_ Hu].
  pose proof (bpow_pos e) as He.
  assert (Hlt : (bpow k < bpow (Zdigits2 (Zpos m) + e))%R).
  { rewrite bpow_add. nra. }
  apply bpow_lt_inv in Hlt. lia.
Qed.

Lemma value_nonneg (m : positive) (e : Z) : (0 <= IZR (Zpos m) * bpow e)%R.
Proof.
  apply Rmult_le_pos; [apply IZR_le; lia|left; apply bpow_pos].
Qed.

Lemma sign_xorb (a b : bool) : sign (xorb a b) = (sign a * sign b)%R.
Proof. destruct a, b; unfold sign; cbn; ring. Qed.

Lemma Rabs_sign_eq (s : bool) : Rabs (sign s) = 1%R.
Proof.
  destruct s; unfold sign, Rabs; destruct Rcase_abs; lra.
Qed.

Lemma SF2R_finite_abs (s : bool) (m : positive) (e : Z) :
  Rabs (SF2R (S754_finite s m e)) = (IZR (Zpos m) * bpow e)%R.
Proof.
  cbn [SF2R]. rewrite Rabs_sign. apply Rabs_pos_eq, value_nonneg.
Qed.

Section RoundingR.

Variables prec emax : Z.
Hypothesis prec_pos : 0 < prec.
Hypothesis emax_big : 2 <= emax.

Local Abbreviation fexp := (fexp prec emax).
Local Abbreviation emin := (emin prec emax).
Local Abbreviation bra := (binary_round_aux prec emax).

(** The value of the float [binary_round_aux] returns, when it is not
    an infinity: the rounded significand at the target exponent. *)
Lemma bra_value (s : bool) (X : positive) (E : Z) :
  E <= fexp (Zdigits2 (Zpos X) + E) ->
  is_finite (bra s (Zpos X) E loc_Exact) = true ->
  let t := fexp (Zdigits2 (Zpos X) + E) in
  SF2R (bra s (Zpos X) E loc_Exact)
  = (sign s * (IZR (rne (Zpos X) (t - E)) * bpow t))%R.
Proof using prec_pos emax_big.
  intros Ht Hfin t.
  destruct (bra_spec prec emax prec_pos emax_big s X E Ht)
    as [[Hq Hz]|(m & e' & He' & Hm & _ & Hr)]; fold t in Hq || fold t in Hm.
  - rewrite Hz, Hq. cbn [SF2R]. ring.
  - rewrite Hr in *. destruct (e' <=? emax - prec); [|discriminate].
    cbn [SF2R]. rewrite <- Hm, mult_IZR, bpow_IZR by lia.
    replace e' with (e' - t + t) at 1 by lia. rewrite bpow_add. ring.
Qed.

(** The result is within half a unit in the last place of the exact
    value. *)
Lemma bra_abs_error (s : bool) (X : positive) (E : Z) :
  E <= fexp (Zdigits2 (Zpos X) + E) ->
  is_finite (bra s (Zpos X) E loc_Exact) = true ->
  (Rabs (SF2R (bra s (Zpos X) E loc_Exact) - sign s * (IZR (Zpos X) * bpow E))
   <= bpow (fexp (Zdigits2 (Zpos X) + E)) / 2)%R.
Proof using prec_pos emax_big.
  intros Ht Hfin. rewrite bra_value by assumption.
  set (t := fexp (Zdigits2 (Zpos X) + E)) in *.
  pose proof (rne_error_R (Zpos X) (t - E) ltac:(lia)) as Hr.
  set (q := IZR (rne (Zpos X) (t - E))) in *.
  replace (sign s * (q * bpow t) - sign s * (IZR (Zpos X) * bpow E))%R
    with (sign s * ((q * bpow (t - E) - IZR (Zpos X)) * bpow E))%R.
  2:{ replace t with (t - E + E) at 2 by lia. rewrite bpow_add. ring. }
  rewrite Rabs_sign, Rabs_mult, (Rabs_pos_eq (bpow E))
    by (left; apply bpow_pos).
  replace t with (t - E + E) at 2 by lia. rewrite bpow_add.
  pose proof (bpow_pos E). nra.
Qed.

(** In the normal range the error is at most [2 ^ - prec], relatively. *)
Lemma bra_rel_error (s : bool) (X : positive) (E : Z) :
  E <= fexp (Zdigits2 (Zpos X) + E) ->
  emin <= Zdigits2 (Zpos X) + E - prec ->
  is_finite (bra s (Zpos X) E loc_Exact) = true ->
  (Rabs (SF2R (bra s (Zpos X) E loc_Exact) - sign s * (IZR (Zpos X) * bpow E))
   <= bpow (- prec) * (IZR (Zpos X) * bpow E))%R.
Proof using prec_pos emax_big.
  intros Ht Hn Hfin.
  eapply Rle_trans; [apply bra_abs_error; assumption|].
  set (d := Zdigits2 (Zpos X)) in *.
  assert (Hf : fexp (d + E) = d + E - prec)
    by (unfold SpecFloat.fexp; fold emin; lia).
  rewrite Hf, <- bpow_half.
  pose proof (IZR_pos_bounds X) as [Hl _]. fold d in Hl.
  replace (d + E - prec - 1) with (- prec + ((d - 1) + E)) by lia.
  rewrite !bpow_add.
  apply Rmult_le_compat_l; [left; apply bpow_pos|].
  apply Rmult_le_compat_r; [left; apply bpow_pos|exact Hl].
Qed.

(** A significand already at its target exponent is not rounded. *)
Lemma bra_no_error (s : bool) (X : positive) (E : Z) :
  E = fexp (Zdigits2 (Zpos X) + E) ->
  is_finite (bra s (Zpos X) E loc_Exact) = true ->
  SF2R (bra s (Zpos X) E loc_Exact) = (sign s * (IZR (Zpos X) * bpow E))%R.
Proof using prec_pos emax_big.
  intros Ht Hfin. rewrite bra_value by (assumption || lia).
  rewrite <- Ht, Z.sub_diag, rne_exact. reflexivity.
Qed.

Lemma binary_round_same_value (s : bool) (m : positive) (e : Z) :
  exists (mz : positive) (ez : Z),
    (IZR (Zpos mz) * bpow ez = IZR (Zpos m) * bpow e)%R /\
    Zdigits2 (Zpos mz) + ez = Zdigits2 (Zpos m) + e /\
    ez = Z.min e (fexp (Zdigits2 (Zpos m) + e)) /\
    ez <= fexp (Zdigits2 (Zpos mz) + ez) /\
    binary_round prec emax s m e = bra s (Zpos mz) ez loc_Exact.
Proof using prec_pos emax_big.
  destruct (binary_round_bra prec emax prec_pos emax_big s m e)
    as (mz & Hmz & Hle & Heq). cbv zeta in *.
  set (ez := Z.min e (fexp (Zdigits2 (Zpos m) + e))) in *.
  exists mz, ez. repeat split; try assumption.
  - rewrite Hmz, mult_IZR, bpow_IZR by lia.
    replace e with (e - ez + ez) at 2 by lia. rewrite bpow_add. ring.
  - rewrite (Zdigits2_mul_pow2 m mz (e - ez)); [lia|lia|assumption].
Qed.

(** Rounding a number of the normal range: the relative error is at
    most [2 ^ - prec]. *)
Lemma binary_round_rel_error (s : bool) (m : positive) (e : Z) :
  (bpow (emin + prec - 1) <= IZR (Zpos m) * bpow e)%R ->
  is_finite (binary_round prec emax s m e) = true ->
  (Rabs (SF2R (binary_round prec emax s m e) - sign s * (IZR (Zpos m) * bpow e))
   <= bpow (- prec) * (IZR (Zpos m) * bpow e))%R.
Proof using prec_pos emax_big.
  intros Hn Hfin. apply magnitude_ge in Hn.
  destruct (binary_round_same_value s m e) as (mz & ez & Hv & Hd & _ & Hle & Heq).
  rewrite Heq in *. rewrite <- Hv.
  apply bra_rel_error; try assumption. lia.
Qed.

(** Rounding a multiple of the least positive float: the relative error
    is at most [2 ^ - prec], also below the normal range, where there is
    no error. *)
Lemma binary_round_rel_error_emin (s : bool) (m : positive) (e : Z) :
  emin <= e ->
  is_finite (binary_round prec emax s m e) = true ->
  (Rabs (SF2R (binary_round prec emax s m e) - sign s * (IZR (Zpos m) * bpow e))
   <= bpow (- prec) * (IZR (Zpos m) * bpow e))%R.
Proof using prec_pos emax_big.
  intros He Hfin.
  destruct (binary_round_same_value s m e) as (mz & ez & Hv & Hd & Hez & Hle & Heq).
  rewrite Heq in *. rewrite <- Hv.
  destruct (Z.le_gt_cases emin (Zdigits2 (Zpos m) + e - prec)) as [Hn|Hs].
  - apply bra_rel_error; try assumption. lia.
  - assert (Hf : fexp (Zdigits2 (Zpos m) + e) = emin)
      by (unfold SpecFloat.fexp; fold emin; lia).
    rewrite bra_no_error; try assumption.
    + rewrite Rminus_diag, Rabs_R0.
      apply Rmult_le_pos; [left; apply bpow_pos|apply value_nonneg].
    + rewrite Hd, Hf. lia.
Qed.

(** The product of two floats is given to [binary_round_aux] at or below
    its target exponent. *)
Lemma SFmul_exponent (mx my : positive) (ex ey : Z) :
  bounded prec emax mx ex = true -> bounded prec emax my ey = true ->
  ex + ey <= fexp (Zdigits2 (Zpos (mx * my)) + (ex + ey)).
Proof using prec_pos emax_big.
  unfold bounded, canonical_mantissa. intros Hx Hy.
  apply andb_true_iff in Hx as [Hx _]. apply andb_true_iff in Hy as [Hy _].
  apply Z.eqb_eq in Hx, Hy.
  change (Zpos (digits2_pos mx)) with (Zdigits2 (Zpos mx)) in Hx.
  change (Zpos (digits2_pos my)) with (Zdigits2 (Zpos my)) in Hy.
  pose proof (Zdigits2_mul mx my) as [Hd _].
  pose proof (Zdigits2_pos mx). pose proof (Zdigits2_pos my).
  unfold SpecFloat.fexp, SpecFloat.emin in *. lia.
Qed.

(** The product of two floats, in the normal range: the relative error
    is at most [2 ^ - prec]. *)
Lemma SFmul_rel_error (x y : spec_float) :
  valid_binary prec emax x = true -> valid_binary prec emax y = true ->
  (bpow (emin + prec - 1) <= Rabs (SF2R x * SF2R y))%R ->
  is_finite (SFmul prec emax x y) = true ->
  (Rabs (SF2R (SFmul prec emax x y) - SF2R x * SF2R y)
   <= bpow (- prec) * Rabs (SF2R x * SF2R y))%R.
Proof using prec_pos emax_big.
  intros Hx Hy Hn Hfin.
  assert (Hsmall : (bpow (emin + prec - 1) <= Rabs 0 -> False)%R).
  { rewrite Rabs_R0. pose proof (bpow_pos (emin + prec - 1)). lra. }
  destruct x as [sx|sx| |sx mx ex], y as [sy|sy| |sy my ey];
    cbn [SF2R] in Hn; rewrite ?Rmult_0_l, ?Rmult_0_r in Hn;
    try (exfalso; exact (Hsmall Hn)).
  cbn [valid_binary] in Hx, Hy. cbn [SFmul] in *.
  pose proof (SFmul_exponent mx my ex ey Hx Hy) as Hle.
  assert (Hv : (SF2R (S754_finite sx mx ex) * SF2R (S754_finite sy my ey)
                = sign (xorb sx sy) * (IZR (Zpos (mx * my)) * bpow (ex + ey)))%R).
  { cbn [SF2R]. rewrite sign_xorb, Pos2Z.inj_mul, mult_IZR, bpow_add. ring. }
  cbn [SF2R] in Hv |- *. rewrite Hv in Hn. rewrite Hv.
  rewrite Rabs_sign in Hn. rewrite (Rabs_sign _ (_ * _)).
  rewrite (Rabs_pos_eq (IZR (Zpos (mx * my)) * bpow (ex + ey))) in *
    by apply value_nonneg.
  apply bra_rel_error; try assumption.
  apply magnitude_ge in Hn. lia.
Qed.

(** A value below [2 ^ (emax - 1)] does not round to an infinity. *)
Lemma bra_finite (s : bool) (X : positive) (E : Z) :
  E <= fexp (Zdigits2 (Zpos X) + E) ->
  (IZR (Zpos X) * bpow E < bpow (emax - 1))%R ->
  is_finite (bra s (Zpos X) E loc_Exact) = true.
Proof using prec_pos emax_big.
  intros Ht Hlt.
  assert (Hd : Zdigits2 (Zpos X) + E <= emax - 1).
  { pose proof (IZR_pos_bounds X) as [Hl _]. pose proof (bpow_pos E).
    assert (Hb : (bpow (Zdigits2 (Zpos X) - 1 + E) < bpow (emax - 1))%R).
    { rewrite bpow_add. nra. }
    apply bpow_lt_inv in Hb. lia. }
  destruct (bra_spec prec emax prec_pos emax_big s X E Ht)
    as [[_ ->]|(m & e' & He' & _ & _ & ->)]; [reflexivity|].
  assert (Hle : e' <= emax - prec)
    by (unfold SpecFloat.fexp, SpecFloat.emin in He'; lia).
  apply Z.leb_le in Hle. rewrite Hle. reflexivity.
Qed.

Lemma SFmul_finite (x y : spec_float) :
  valid_binary prec emax x = true -> valid_binary prec emax y = true ->
  is_finite x = true -> is_finite y = true ->
  (Rabs (SF2R x * SF2R y) < bpow (emax - 1))%R ->
  is_finite (SFmul prec emax x y) = true.
Proof using prec_pos emax_big.
  intros Hx Hy Fx Fy Hlt.
  destruct x as [sx|sx| |sx mx ex], y as [sy|sy| |sy my ey];
    try discriminate; try reflexivity.
  cbn [valid_binary] in Hx, Hy. cbn [SFmul].
  apply bra_finite; [apply SFmul_exponent; assumption|].
  rewrite Rabs_mult, !SF2R_finite_abs in Hlt.
  rewrite Pos2Z.inj_mul, mult_IZR, bpow_add.
  replace (IZR (Zpos mx) * IZR (Zpos my) * (bpow ex * bpow ey))%R
    with (IZR (Zpos mx) * bpow ex * (IZR (Zpos my) * bpow ey))%R by ring.
  exact Hlt.
Qed.

(** Conversion of a number of the normal range of the target format:
    the relative error is at most [2 ^ - prec]. *)
Lemma convert_rel_error (x : spec_float) :
  (bpow (emin + prec - 1) <= Rabs (SF2R x))%R ->
  is_finite (convert prec emax x) = true ->
  (Rabs (SF2R (convert prec emax x) - SF2R x) <= bpow (- prec) * Rabs (SF2R x))%R.
Proof using prec_pos emax_big.
  intros Hn Hfin.
  destruct x as [s|s| |s m e];
    try (cbn [SF2R] in Hn; rewrite Rabs_R0 in Hn;
         pose proof (bpow_pos (emin + prec - 1)); lra).
  rewrite SF2R_finite_abs in *. cbn [convert] in *. cbn [SF2R].
  apply binary_round_rel_error; assumption.
Qed.

(** A number below [2 ^ (emax - 1)] converts to a number. *)
Lemma convert_finite (x : spec_float) :
  is_finite x = true ->
  (Rabs (SF2R x) < bpow (emax - 1))%R ->
  is_finite (convert prec emax x) = true.
Proof using prec_pos emax_big.
  intros Fx Hlt. destruct x as [s|s| |s m e]; try discriminate; try reflexivity.
  rewrite SF2R_finite_abs in Hlt. cbn [convert].
  destruct (binary_round_same_value s m e) as (mz & ez & Hv & _ & _ & Hle & ->).
  apply bra_finite; [assumption|]. rewrite Hv. exact Hlt.
Qed.

End RoundingR.

(** ** The perimeter of a circle *)

Lemma PI_bounds : (3.1415926535 < PI < 3.141592654)%R.
Proof.
  pose proof (PI_2_3_7_ineq 4) as [Hl Hu].
  unfold sum_f_R0, tg_alt, PI_2_3_7_tg, Ratan_seq in Hl, Hu.
  cbn [Nat.mul Nat.add] in Hl, Hu. simpl INR in Hl, Hu.
  split; lra.
Qed.

Lemma bpow_neg_IZR (k : Z) : 0 <= k -> bpow (- k) = (/ IZR (2 ^ k))%R.
Proof.
  intros Hk. rewrite bpow_IZR by assumption.
  pose proof (bpow_pos k) as Hp. pose proof (bpow_add (- k) k) as Ha.
  replace (- k + k) with 0 in Ha by lia. change (bpow 0) with 1%R in Ha.
  apply (Rmult_eq_reg_r (bpow k)); [|lra].
  rewrite <- Ha. field. lra.
Qed.

(** [8.L * std::atan(1)], the approximation of 2 pi the code multiplies
    the radius by: an exact product. *)
Lemma two_pi_long_double :
  lmul (long_literal 8) (to_long_double atan_1)
  = S754_finite false 14488038916154245120 (-61).
Proof. vm_compute. reflexivity. Qed.

Lemma two_pi_value :
  SF2R (S754_finite false 14488038916154245120 (-61))
  = (14488038916154245120 / 2305843009213693952)%R.
Proof.
  cbn [SF2R]. unfold sign. change (bpow (-61)) with (bpow (Z.opp 61)).
  rewrite bpow_neg_IZR by lia.
  change (2 ^ 61) with 2305843009213693952. field.
Qed.

Lemma SF2R_to_long_double (x : double) :
  is_double x -> SF2R (to_long_double x) = SF2R x.
Proof.
  intros Hx. destruct x as [s|s| |s m e]; try reflexivity.
  destruct (to_long_double_finite s m e Hx) as (Y & HY & _ & ->).
  pose proof (is_double_finite s m e Hx) as (Hd & _ & _).
  set (a := 64 - Zdigits2 (Zpos m)) in *.
  cbn [SF2R]. rewrite HY, mult_IZR, bpow_IZR by lia.
  replace e with (a + (e - a)) at 2 by lia. rewrite bpow_add. ring.
Qed.

Lemma to_long_double_valid (x : double) : is_long_double (to_long_double x).
Proof. apply convert_valid; lia. Qed.

Lemma is_finite_to_long_double (x : double) :
  is_double x -> is_finite (to_long_double x) = is_finite x.
Proof.
  intros Hx. destruct x as [s|s| |s m e]; try reflexivity.
  destruct (to_long_double_finite s m e Hx) as (Y & _ & _ & ->). reflexivity.
Qed.

Lemma SF2R_double_bound (x : double) :
  is_double x -> (Rabs (SF2R x) < bpow 1024)%R.
Proof.
  intros Hx. destruct x as [s|s| |s m e];
    try (cbn [SF2R]; rewrite Rabs_R0; apply bpow_pos).
  rewrite SF2R_finite_abs.
  pose proof (is_double_finite s m e Hx) as (Hd & _ & He).
  pose proof (IZR_pos_bounds m) as [_ Hu]. pose proof (bpow_pos e).
  pose proof (bpow_le (Zdigits2 (Zpos m) + e) 1024 ltac:(lia)) as Hle.
  rewrite bpow_add in Hle. nra.
Qed.

Lemma Rabs_le_inv (x a : R) : (Rabs x <= a -> - a <= x <= a)%R.
Proof. unfold Rabs. destruct (Rcase_abs x); lra. Qed.

Lemma bpow_m53 : bpow (-53) = (/ 9007199254740992)%R.
Proof. exact (bpow_neg_IZR 53 ltac:(lia)). Qed.

Lemma bpow_m64 : bpow (-64) = (/ 18446744073709551616)%R.
Proof. exact (bpow_neg_IZR 64 ltac:(lia)). Qed.

Lemma SF2R_double_least (x : double) :
  is_double x -> (0 < SF2R x)%R -> (bpow (-1074) <= SF2R x)%R.
Proof.
  intros Hx Hpos. destruct x as [s|s| |s m e]; cbn [SF2R] in *; try lra.
  pose proof (is_double_finite s m e Hx) as (_ & _ & He).
  pose proof (value_nonneg m e) as Hv.
  destruct s; unfold sign in *; [lra|].
  pose proof (bpow_le (-1074) e ltac:(lia)) as Hle. pose proof (bpow_pos e).
  assert (1 <= IZR (Zpos m))%R by (apply IZR_le; lia). nra.
Qed.

(** [std::atan(1)] is within [2e-10] of pi / 4. *)
Lemma atan_1_near_quarter_pi :
  (Rabs (SF2R atan_1 - PI / 4) <= 2 / 10 ^ 10)%R.
Proof.
  unfold atan_1. cbn [SF2R]. unfold sign.
  change (bpow (-53)) with (bpow (Z.opp 53)). rewrite bpow_neg_IZR by lia.
  change (2 ^ 53) with 9007199254740992.
  pose proof PI_bounds. apply Rabs_le. lra.
Qed.

(** The product of the constant by a positive radius, in [long double]:
    a number, within [2 ^ -64], relatively, of the exact product. *)
Lemma circle_product (r : double) :
  is_double r -> (0 < SF2R r)%R ->
  let C := S754_finite false 14488038916154245120 (-61) in
  is_finite (lmul C (to_long_double r)) = true /\
  (Rabs (SF2R (lmul C (to_long_double r)) - SF2R C * SF2R r)
   <= / 18446744073709551616 * (SF2R C * SF2R r))%R.
Proof.
  intros Hr Hr0 C.
  pose proof two_pi_value as HC. fold C in HC.
  pose proof (SF2R_to_long_double r Hr) as Hx.
  pose proof (to_long_double_valid r) as Vx.
  pose proof (is_finite_to_long_double r Hr) as Fx.
  pose proof (SF2R_double_bound r Hr) as Hub.
  pose proof (SF2R_double_least r Hr Hr0) as Hlb.
  set (x := to_long_double r) in *.
  assert (Fr : is_finite r = true).
  { destruct r; try reflexivity; cbn [SF2R] in Hr0; lra. }
  rewrite Rabs_pos_eq in Hub by lra.
  assert (HP : (Rabs (SF2R C * SF2R x) = SF2R C * SF2R r)%R).
  { rewrite Hx, HC. apply Rabs_pos_eq. nra. }
  assert (FL : is_finite (lmul C x) = true).
  { apply SFmul_finite; try lia; try assumption; try reflexivity.
    - rewrite Fx. exact Fr.
    - rewrite HP, HC.
      pose proof (bpow_le 1027 (16384 - 1) ltac:(lia)) as Hle.
      replace 1027 with (3 + 1024) in Hle by lia. rewrite bpow_add in Hle.
      change (bpow 3) with (2 * (2 * (2 * 1)))%R in Hle. lra. }
  split; [exact FL|].
  rewrite <- HP at 2. rewrite <- bpow_m64, <- Hx.
  apply (SFmul_rel_error 64 16384); try lia; try assumption; try reflexivity.
  rewrite HP, HC.
  pose proof (bpow_le (emin 64 16384 + 64 - 1) (-1074)
                ltac:(vm_compute; discriminate)).
  lra.
Qed.

(** The two roundings of the product by the radius, and the distance of
    the constant from 2 pi. *)
Lemma circle_error (r : double) :
  is_double r -> (bpow (-1022) <= SF2R r)%R ->
  is_finite (fst (circle.get_circumference {| circle.r_ := r |})) = true ->
  (Rabs (SF2R (fst (circle.get_circumference {| circle.r_ := r |}))
         - 2 * PI * SF2R r)
   <= / 10 ^ 9 * (2 * PI * SF2R r))%R.
Proof.
  intros Hr Hn Hfin.
  cbn [circle.get_circumference fst circle.r_] in *.
  rewrite two_pi_long_double in *.
  pose proof (bpow_pos (-1022)) as Hp.
  destruct (circle_product r Hr ltac:(lra)) as [FL E1].
  set (C := S754_finite false 14488038916154245120 (-61)) in *.
  pose proof two_pi_value as HC. fold C in HC.
  set (x := to_long_double r) in *.
  rewrite HC in E1. apply Rabs_le_inv in E1.
  assert (HL : (0 < SF2R (lmul C x))%R) by lra.
  assert (E2 : (Rabs (SF2R (to_double (lmul C x)) - SF2R (lmul C x))
                <= bpow (-53) * Rabs (SF2R (lmul C x)))%R).
  { apply (convert_rel_error 53 1024); try lia; try assumption.
    rewrite Rabs_pos_eq by lra.
    change (emin 53 1024 + 53 - 1) with (-1022). lra. }
  rewrite (Rabs_pos_eq (SF2R (lmul C x))), bpow_m53 in E2 by lra.
  apply Rabs_le_inv in E2.
  pose proof PI_bounds as [Hl Hu].
  assert (Hlo : (3.1415926535 * SF2R r <= PI * SF2R r)%R) by nra.
  assert (Hhi : (PI * SF2R r <= 3.141592654 * SF2R r)%R) by nra.
  replace (2 * PI * SF2R r)%R with (2 * (PI * SF2R r))%R by ring.
  set (T := (PI * SF2R r)%R) in *.
  apply Rabs_le. lra.
Qed.

(** A radius up to [2 ^ 1020] gives a finite perimeter. *)
Lemma circle_perimeter_finite (r : double) :
  is_double r -> is_finite r = true -> spec.strictly_negative r = false ->
  (SF2R r <= bpow 1020)%R ->
  is_finite (fst (circle.get_circumference {| circle.r_ := r |})) = true.
Proof.
  intros Hr Fr Nr Hle.
  destruct r as [s|s| |s m e]; try discriminate.
  - destruct s; reflexivity.
  - assert (Hr0 : (0 < SF2R (S754_finite s m e))%R).
    { destruct s; [discriminate|]. cbn [SF2R]. unfold sign.
      pose proof (bpow_pos e). assert (0 < IZR (Zpos m))%R by (apply IZR_lt; lia).
      nra. }
    cbn [circle.get_circumference fst circle.r_].
    rewrite two_pi_long_double.
    destruct (circle_product _ Hr Hr0) as [FL E1].
    set (C := S754_finite false 14488038916154245120 (-61)) in *.
    pose proof two_pi_value as HC. fold C in HC.
    rewrite HC in E1. apply Rabs_le_inv in E1.
    apply (convert_finite 53 1024); try lia; try assumption.
    pose proof (bpow_add 3 1020) as H3.
    change (3 + 1020) with (1024 - 1) in H3.
    change (bpow 3) with (2 * (2 * (2 * 1)))%R in H3.
    apply Rabs_def1; lra.
Qed.

Lemma circle_new_ok (r : double) (c : circle.t) :
  circle.new r = Ok c ->
  c = {| circle.r_ := r |} /\ spec.strictly_negative r = false.
Proof.
  unfold circle.new. rewrite dlt_zero.
  destruct (spec.strictly_negative r); [discriminate|].
  intros H. injection H as <-. split; reflexivity.
Qed.

(** C2, as amended.  For a radius that is 0, or at least [2 ^ -1022],
    the least normal [double], the perimeter of the circle, when it is
    finite, is within [1e-9], relatively, of 2 pi times the radius. *)
Theorem circle_perimeter_accuracy (r : double) (c : circle.t) :
  is_double r -> circle.new r = Ok c ->
  (SF2R r = 0 \/ bpow (-1022) <= SF2R r)%R ->
  is_finite (fst (circle.get_circumference c)) = true ->
  spec.within (/ 10 ^ 9) (fst (circle.get_circumference c))
    (2 * PI * SF2R r).
Proof.
  intros Hr Hnew Hrange Hfin.
  apply circle_new_ok in Hnew as [-> Hsn].
  split; [exact Hfin|].
  destruct Hrange as [Hz|Hn].
  - destruct r as [s|s| |s m e].
    + assert (Hc : fst (circle.get_circumference {| circle.r_ := S754_zero s |})
                   = S754_zero s) by (destruct s; reflexivity).
      rewrite Hc. cbn [SF2R].
      rewrite Rmult_0_r, Rminus_diag, Rabs_R0. lra.
    + destruct s; discriminate.
    + discriminate.
    + exfalso. pose proof (SF2R_finite_abs s m e) as Ha.
      rewrite Hz, Rabs_R0 in Ha.
      pose proof (bpow_pos e). assert (0 < IZR (Zpos m))%R by (apply IZR_lt; lia).
      nra.
  - pose proof (bpow_pos (-1022)).
    rewrite (Rabs_pos_eq (2 * PI * SF2R r)).
    + apply circle_error; assumption.
    + pose proof PI_bounds. nra.
Qed.

Lemma SF2R_one : SF2R (double_of_int 1) = 1%R.
Proof.
  change (double_of_int 1) with (S754_finite false 4503599627370496 (-52)).
  cbn [SF2R]. unfold sign. change (bpow (-52)) with (bpow (Z.opp 52)).
  rewrite bpow_neg_IZR by lia. change (2 ^ 52) with 4503599627370496. field.
Qed.

Lemma one_is_normal : (bpow (-1022) <= SF2R (double_of_int 1))%R.
Proof.
  rewrite SF2R_one. change 1%R with (bpow 0). apply bpow_le. lia.
Qed.

Lemma circle_perimeter_accuracy_witness :
  spec.within (/ 10 ^ 9)
    (fst (circle.get_circumference {| circle.r_ := double_of_int 1 |}))
    (2 * PI * SF2R (double_of_int 1)).
Proof.
  exact (circle_perimeter_accuracy (double_of_int 1)
           {| circle.r_ := double_of_int 1 |}
           eq_refl eq_refl (or_intror one_is_normal) eq_refl).
Defined.

(** C2, as stated, fails at both ends of the range.  For the least
    positive radius, [2 ^ -1074], the perimeter is six times the radius;
    for the largest radius, [(2 ^ 53 - 1) * 2 ^ 971], it is infinite. *)
Lemma circle_perimeter_out_of_range :
  let tiny : double := S754_finite false 1 (-1074) in
  let huge : double := S754_finite false 9007199254740991 971 in
  (is_double tiny /\
   spec.at_least_zero tiny = true /\
   circle.new tiny = Ok {| circle.r_ := tiny |} /\
   fst (circle.get_circumference {| circle.r_ := tiny |})
   = S754_finite false 6 (-1074) /\
   ~ spec.within (/ 10 ^ 9)
       (fst (circle.get_circumference {| circle.r_ := tiny |}))
       (2 * PI * SF2R tiny)) /\
  (is_double huge /\
   spec.at_least_zero huge = true /\
   circle.new huge = Ok {| circle.r_ := huge |} /\
   fst (circle.get_circumference {| circle.r_ := huge |})
   = S754_infinity false /\
   forall tol : R,
     ~ spec.within tol
         (fst (circle.get_circumference {| circle.r_ := huge |}))
         (2 * PI * SF2R huge)).
Proof.
  cbv zeta. split.
  - repeat split.
    assert (Hc : fst (circle.get_circumference
                        {| circle.r_ := S754_finite false 1 (-1074) |})
                 = S754_finite false 6 (-1074)) by (vm_compute; reflexivity).
    rewrite Hc. intros [_ H]. cbn [SF2R] in H. unfold sign in H.
    pose proof (bpow_pos (-1074)) as Hb. pose proof PI_bounds as [Hl Hu].
    set (b := bpow (-1074)) in *.
    replace (2 * PI * (1 * (1 * b)))%R with (2 * (PI * b))%R in H by ring.
    assert (Hlo : (3.1415926535 * b <= PI * b)%R) by nra.
    assert (Hhi : (PI * b <= 4 * b)%R) by nra.
    set (T := (PI * b)%R) in *.
    rewrite (Rabs_pos_eq (2 * T)) in H by lra.
    apply Rabs_le_inv in H. lra.
  - repeat split.
    assert (Hc : fst (circle.get_circumference
                        {| circle.r_ := S754_finite false 9007199254740991 971 |})
                 = S754_infinity false) by (vm_compute; reflexivity).
    rewrite Hc. intros tol [H _]. discriminate.
Qed.

(** ** The perimeters of squares and triangles, in real numbers *)

(** The [double] product of a small integer and a [double] rounds the
    integer multiple of the significand. *)
Lemma literal_times_double_round (c : positive) (s : bool) (m : positive) (e : Z) :
  Zdigits2 (Zpos c) <= 11 -> is_double (S754_finite s m e) ->
  dmul (double_of_int (Zpos c)) (S754_finite s m e)
  = binary_round 53 1024 s (c * m) e.
Proof.
  intros Hc Hx.
  destruct (double_of_int_pos c ltac:(lia)) as (Yc & HYc & HdYc & ->).
  pose proof (is_double_finite s m e Hx) as (Hd & Hf & He).
  pose proof (Zdigits2_pos c) as Hcp.
  assert (HdKm : Zdigits2 (Zpos m) <= Zdigits2 (Zpos (c * m))).
  { apply Zdigits2_mono. rewrite Pos2Z.inj_mul. nia. }
  set (dc := Zdigits2 (Zpos c)) in *.
  set (K := (c * m)%positive) in *. set (dK := Zdigits2 (Zpos K)) in *.
  assert (HfK : e <= fexp 53 1024 (dK + e)).
  { rewrite <- Hf at 1. apply fexp_mono. lia. }
  assert (HX : Zpos (Yc * m) = Zpos K * 2 ^ (53 - dc)).
  { rewrite Pos2Z.inj_mul, HYc. unfold K. rewrite Pos2Z.inj_mul. ring. }
  unfold dmul. cbn [SFmul xorb].
  rewrite (bra_mul_pow2 53 1024 ltac:(lia) ltac:(lia) s (Yc * m) K _ (53 - dc));
    [|lia|exact HX|].
  - rewrite binary_round_no_shift by (try fold dK; lia). f_equal. lia.
  - rewrite (Zdigits2_mul_pow2 K (Yc * m) (53 - dc)); [|lia|exact HX].
    fold dK. replace (dK + (53 - dc) + (0 - (53 - dc) + e)) with (dK + e) by lia.
    lia.
Qed.

(** Its relative error is at most [2 ^ -53], whenever it is a number. *)
Lemma literal_times_double_error (c : positive) (x : double) :
  Zdigits2 (Zpos c) <= 11 -> is_double x ->
  is_finite (dmul (double_of_int (Zpos c)) x) = true ->
  (Rabs (SF2R (dmul (double_of_int (Zpos c)) x) - IZR (Zpos c) * SF2R x)
   <= bpow (-53) * Rabs (IZR (Zpos c) * SF2R x))%R.
Proof.
  intros Hc Hx Hfin. destruct x as [s|s| |s m e].
  - destruct (double_of_int_pos c ltac:(lia)) as (Yc & _ & _ & ->).
    cbn [dmul SFmul SF2R]. unfold dmul. cbn [SFmul SF2R].
    rewrite Rmult_0_r, Rminus_diag, Rabs_R0. lra.
  - destruct (double_of_int_pos c ltac:(lia)) as (Yc & _ & _ & Hy).
    rewrite Hy in Hfin. discriminate.
  - destruct (double_of_int_pos c ltac:(lia)) as (Yc & _ & _ & Hy).
    rewrite Hy in Hfin. discriminate.
  - rewrite literal_times_double_round in * by assumption.
    pose proof (is_double_finite s m e Hx) as (_ & _ & He).
    assert (Hv : (IZR (Zpos c) * SF2R (S754_finite s m e)
                  = sign s * (IZR (Zpos (c * m)) * bpow e))%R).
    { cbn [SF2R]. rewrite Pos2Z.inj_mul, mult_IZR. ring. }
    rewrite Hv, Rabs_sign, (Rabs_pos_eq _ (value_nonneg (c * m) e)).
    apply (binary_round_rel_error_emin 53 1024); try lia; try assumption.
    change (emin 53 1024) with (-1074). lia.
Qed.

(** The perimeters of the square and of the triangle are within
    [2 ^ -53], relatively, of 4 and of 3 times the side, whenever they are
    numbers. *)
Lemma square_and_triangle_perimeter_error (side : double) :
  is_double side ->
  (is_finite (fst (square.get_circumference {| square.side_ := side |})) = true ->
   (Rabs (SF2R (fst (square.get_circumference {| square.side_ := side |}))
          - 4 * SF2R side)
    <= bpow (-53) * Rabs (4 * SF2R side))%R) /\
  (is_finite (fst (equilateral_triangle.get_circumference
                     {| equilateral_triangle.side_ := side |})) = true ->
   (Rabs (SF2R (fst (equilateral_triangle.get_circumference
                       {| equilateral_triangle.side_ := side |}))
          - 3 * SF2R side)
    <= bpow (-53) * Rabs (3 * SF2R side))%R).
Proof.
  intros Hside.
  cbn [square.get_circumference equilateral_triangle.get_circumference fst
       square.side_ equilateral_triangle.side_].
  rewrite (literal_times_double 4), (literal_times_double 3);
    try assumption; try (vm_compute; discriminate).
  split; intros Hfin.
  - apply (literal_times_double_error 4); try assumption.
    vm_compute; discriminate.
  - apply (literal_times_double_error 3); try assumption.
    vm_compute; discriminate.
Qed.

(** ** Signs *)

Lemma bra_not_negative (prec emax : Z) (X E : Z) (l : location) :
  spec.strictly_negative (binary_round_aux prec emax false X E l) = false.
Proof.
  unfold binary_round_aux.
  destruct (shr_fexp prec emax X E l) as [mrs e'].
  destruct (shr_fexp prec emax _ e' loc_Exact) as [mrs' e''].
  destruct (shr_m mrs'); try reflexivity.
  destruct (e'' <=? emax - prec); reflexivity.
Qed.

Lemma binary_round_not_negative (prec emax : Z) (m : positive) (e : Z) :
  spec.strictly_negative (binary_round prec emax false m e) = false.
Proof.
  unfold binary_round. destruct (shl_align m e _) as [mz ez].
  apply bra_not_negative.
Qed.

Lemma convert_not_negative (prec emax : Z) (x : spec_float) :
  spec.strictly_negative x = false ->
  spec.strictly_negative (convert prec emax x) = false.
Proof.
  destruct x as [s|s| |s m e]; cbn [convert]; try (intros; assumption).
  destruct s; [discriminate|]. intros _. apply binary_round_not_negative.
Qed.

Lemma SFmul_not_negative (prec emax : Z) (x y : spec_float) :
  spec.strictly_negative x = false -> spec.strictly_negative y = false ->
  spec.strictly_negative (SFmul prec emax x y) = false.
Proof.
  destruct x as [sx|sx| |sx mx ex], y as [sy|sy| |sy my ey];
    try destruct sx; try destruct sy; try discriminate; try reflexivity.
  intros _ _. apply bra_not_negative.
Qed.

Lemma SFadd_not_negative (prec emax : Z) (x y : spec_float) :
  spec.strictly_negative x = false -> spec.strictly_negative y = false ->
  spec.strictly_negative (SFadd prec emax x y) = false.
Proof.
  destruct x as [sx|sx| |sx mx ex], y as [sy|sy| |sy my ey];
    try destruct sx; try destruct sy; try discriminate; try reflexivity.
  intros _ _. cbn [SFadd cond_Zopp]. apply binary_round_not_negative.
Qed.

Lemma not_negative_value (x : spec_float) :
  spec.strictly_negative x = false -> (0 <= SF2R x)%R.
Proof.
  destruct x as [s|s| |s m e]; cbn [SF2R]; try lra.
  destruct s; [discriminate|]. intros _. unfold sign.
  pose proof (value_nonneg m e). lra.
Qed.

Lemma SFadd_finite_inv (prec emax : Z) (x y : spec_float) :
  is_finite (SFadd prec emax x y) = true ->
  is_finite x = true /\ is_finite y = true.
Proof.
  destruct x as [sx|sx| |sx mx ex], y as [sy|sy| |sy my ey];
    try destruct sx; try destruct sy; cbn [SFadd is_finite];
    try discriminate; intros _; split; reflexivity.
Qed.

(** ** Sums *)

Section Addition.

Variables prec emax : Z.
Hypothesis prec_pos : 0 < prec.
Hypothesis emax_big : 2 <= emax.

Lemma bounded_emin (m : positive) (e : Z) :
  bounded prec emax m e = true -> emin prec emax <= e.
Proof using prec_pos emax_big.
  unfold bounded, canonical_mantissa. intros H.
  apply andb_true_iff in H as [H _]. apply Z.eqb_eq in H.
  unfold fexp in H. lia.
Qed.

(** The sum of two floats that are not negative, when it is a number: the
    relative error is at most [2 ^ - prec]. *)
Lemma SFadd_rel_error (x y : spec_float) :
  valid_binary prec emax x = true -> valid_binary prec emax y = true ->
  spec.strictly_negative x = false -> spec.strictly_negative y = false ->
  is_finite (SFadd prec emax x y) = true ->
  (Rabs (SF2R (SFadd prec emax x y) - (SF2R x + SF2R y))
   <= bpow (- prec) * (SF2R x + SF2R y))%R.
Proof using prec_pos emax_big.
  intros Vx Vy Nx Ny Hfin.
  pose proof (not_negative_value x Nx) as Px.
  pose proof (not_negative_value y Ny) as Py.
  pose proof (bpow_pos (- prec)) as Hu.
  assert (Hexact : forall z : spec_float,
             (SF2R z = SF2R x + SF2R y)%R ->
             (Rabs (SF2R z - (SF2R x + SF2R y))
              <= bpow (- prec) * (SF2R x + SF2R y))%R).
  { intros z ->. rewrite Rminus_diag, Rabs_R0. nra. }
  destruct x as [sx|sx| |sx mx ex], y as [sy|sy| |sy my ey];
    try discriminate;
    try (apply Hexact; destruct sx; destruct sy; cbn [SFadd SF2R]; ring).
  destruct sx; [discriminate|]. destruct sy; [discriminate|].
  cbn [valid_binary] in Vx, Vy.
  pose proof (bounded_emin mx ex Vx) as Hex.
  pose proof (bounded_emin my ey Vy) as Hey.
  cbn [SFadd cond_Zopp] in *.
  set (ez := Z.min ex ey) in *.
  destruct (shl_align_spec mx ex ez) as (mx' & Hsx & Hmx).
  destruct (shl_align_spec my ey ez) as (my' & Hsy & Hmy).
  rewrite Hsx, Hsy in *. cbn [fst] in *.
  change (Zpos mx' + Zpos my') with (Zpos (mx' + my')) in *.
  cbn [binary_normalize] in *.
  replace (Z.min ex ez) with ez in Hmx by lia.
  replace (Z.min ey ez) with ez in Hmy by lia.
  assert (Hv : (SF2R (S754_finite false mx ex) + SF2R (S754_finite false my ey)
                = sign false * (IZR (Zpos (mx' + my')) * bpow ez))%R).
  { cbn [SF2R]. rewrite Pos2Z.inj_add, plus_IZR, Hmx, Hmy, !mult_IZR.
    rewrite !bpow_IZR by lia.
    replace ex with (ex - ez + ez) at 1 by lia.
    replace ey with (ey - ez + ez) at 1 by lia.
    rewrite !bpow_add. ring. }
  rewrite Hv.
  replace (sign false * (IZR (Zpos (mx' + my')) * bpow ez))%R
    with (IZR (Zpos (mx' + my')) * bpow ez)%R at 2 by (unfold sign; ring).
  apply binary_round_rel_error_emin; try assumption. lia.
Qed.

End Addition.

Lemma dadd_rel_error (x y : double) :
  is_double x -> is_double y ->
  spec.strictly_negative x = false -> spec.strictly_negative y = false ->
  is_finite (dadd x y) = true ->
  ((1 - bpow (-53)) * (SF2R x + SF2R y) <= SF2R (dadd x y)
   <= (1 + bpow (-53)) * (SF2R x + SF2R y))%R.
Proof.
  intros Vx Vy Nx Ny Hfin.
  pose proof (SFadd_rel_error 53 1024 ltac:(lia) ltac:(lia) x y Vx Vy Nx Ny Hfin)
    as H.
  apply Rabs_le_inv in H. change (- (53)) with (-53) in H. fold (dadd x y) in H.
  lra.
Qed.

(** The perimeter of a constructed shape is not negative. *)
Lemma get_circumference_not_negative (o : shape) :
  spec.constructed o ->
  spec.strictly_negative (fst (get_circumference o)) = false.
Proof.
  destruct o as [[r]|[side]|[side]]; cbn [spec.constructed circle.r_
    square.side_ equilateral_triangle.side_];
    unfold circle.new, square.new, equilateral_triangle.new;
    rewrite dlt_zero; intros H;
    destruct (spec.strictly_negative _) eqn:Hs; try discriminate;
    cbn [get_circumference circle.get_circumference square.get_circumference
         equilateral_triangle.get_circumference fst circle.r_ square.side_
         equilateral_triangle.side_];
    apply convert_not_negative, SFmul_not_negative;
    try (apply convert_not_negative; assumption); reflexivity.
Qed.

Lemma perimeter_not_negative (h : store) (p : ptr) :
  Forall spec.constructed h ->
  spec.strictly_negative (spec.perimeter h p) = false.
Proof.
  intros Hh. unfold spec.perimeter.
  destruct (nth_error h p) as [o|] eqn:Ho; [|reflexivity].
  apply get_circumference_not_negative.
  rewrite Forall_forall in Hh. apply Hh. eapply nth_error_In, Ho.
Qed.

Lemma exact_sum_nonneg (h : store) (l : list ptr) :
  Forall spec.constructed h -> (0 <= spec.exact_sum h l)%R.
Proof.
  intros Hh. induction l as [|p l IH]; cbn [spec.exact_sum]; [lra|].
  pose proof (not_negative_value _ (perimeter_not_negative h p Hh)). lra.
Qed.

Lemma exact_sum_perm (h : store) (l1 l2 : list ptr) :
  Permutation l1 l2 -> spec.exact_sum h l1 = spec.exact_sum h l2.
Proof.
  induction 1; cbn [spec.exact_sum]; try lra.
Qed.

Lemma fold_not_negative (h : store) (l : list ptr) (a : double) :
  Forall spec.constructed h -> spec.strictly_negative a = false ->
  spec.strictly_negative
    (fold_left (fun acc p => dadd acc (spec.perimeter h p)) l a) = false.
Proof.
  intros Hh. revert a. induction l as [|p l IH]; intros a Ha; cbn [fold_left].
  - exact Ha.
  - apply IH, SFadd_not_negative; [exact Ha|apply perimeter_not_negative, Hh].
Qed.

Lemma fold_finite_start (h : store) (l : list ptr) (a : double) :
  is_finite (fold_left (fun acc p => dadd acc (spec.perimeter h p)) l a) = true ->
  is_finite a = true.
Proof.
  revert a. induction l as [|p l IH]; intros a Hfin; cbn [fold_left] in Hfin.
  - exact Hfin.
  - apply IH in Hfin. apply SFadd_finite_inv in Hfin. tauto.
Qed.

(** The sum the loop computes lies between [(1 - u) ^ n] and
    [(1 + u) ^ n] times the exact sum, for [u = 2 ^ -53] and [n] shapes,
    when it is a number. *)
Lemma fold_error (h : store) (l : list ptr) (a : double) :
  Forall spec.constructed h ->
  is_double a -> spec.strictly_negative a = false ->
  is_finite (fold_left (fun acc p => dadd acc (spec.perimeter h p)) l a) = true ->
  ((1 - bpow (-53)) ^ List.length l * (SF2R a + spec.exact_sum h l)
   <= SF2R (fold_left (fun acc p => dadd acc (spec.perimeter h p)) l a)
   <= (1 + bpow (-53)) ^ List.length l * (SF2R a + spec.exact_sum h l))%R.
Proof.
  intros Hh. revert a.
  assert (Hu : (0 < bpow (-53) < 1)%R).
  { rewrite bpow_m53. lra. }
  induction l as [|p l IH]; intros a Va Na Hfin;
    cbn [fold_left List.length spec.exact_sum pow] in *.
  - lra.
  - pose proof (perimeter_valid h p) as Vc.
    pose proof (perimeter_not_negative h p Hh) as Nc.
    pose proof (fold_finite_start h l _ Hfin) as Fac.
    pose proof (dadd_rel_error a _ Va Vc Na Nc Fac) as [Hlo Hhi].
    specialize (IH (dadd a (spec.perimeter h p))
                   (dadd_valid _ _ Va Vc)
                   (SFadd_not_negative 53 1024 _ _ Na Nc) Hfin) as [IHlo IHhi].
    pose proof (exact_sum_nonneg h l Hh) as HT.
    pose proof (not_negative_value a Na) as Pa.
    pose proof (not_negative_value _ Nc) as Pc.
    set (A := SF2R a) in *. set (C := SF2R (spec.perimeter h p)) in *.
    set (T := spec.exact_sum h l) in *.
    set (S1 := SF2R (dadd a (spec.perimeter h p))) in *.
    assert (Hpl : (0 <= (1 - bpow (-53)) ^ List.length l)%R)
      by (apply pow_le; lra).
    assert (Hph : (0 <= (1 + bpow (-53)) ^ List.length l)%R)
      by (apply pow_le; lra).
    set (u := bpow (-53)) in *.
    split.
    + eapply Rle_trans; [|exact IHlo].
      replace ((1 - u) * (1 - u) ^ List.length l * (A + (C + T)))%R
        with ((1 - u) ^ List.length l * ((1 - u) * (A + C + T)))%R by ring.
      apply Rmult_le_compat_l; [assumption|]. nra.
    + eapply Rle_trans; [exact IHhi|].
      replace ((1 + u) * (1 + u) ^ List.length l * (A + (C + T)))%R
        with ((1 + u) ^ List.length l * ((1 + u) * (A + C + T)))%R by ring.
      apply Rmult_le_compat_l; [assumption|]. nra.
Qed.

Lemma pow_one_plus (u : R) (n : nat) :
  (0 <= u)%R -> (2 * (INR n * u) <= 1)%R ->
  ((1 + u) ^ n <= 1 + 2 * (INR n * u))%R.
Proof.
  intros Hu. induction n as [|n IH]; intros Hn.
  - cbn. lra.
  - rewrite S_INR in *. cbn [pow].
    assert (Hn' : (2 * (INR n * u) <= 1)%R) by nra.
    specialize (IH Hn'). pose proof (pos_INR n).
    assert (0 <= (1 + u) ^ n)%R by (apply pow_le; lra).
    nra.
Qed.

Lemma pow_one_minus (u : R) (n : nat) :
  (0 <= u <= 1)%R -> (1 - INR n * u <= (1 - u) ^ n)%R.
Proof.
  intros Hu. induction n as [|n IH].
  - cbn. lra.
  - rewrite S_INR. cbn [pow]. pose proof (pos_INR n).
    assert (0 <= (1 - u) ^ n)%R by (apply pow_le; lra).
    nra.
Qed.

(** Two sums of the same perimeters, in two orders, both numbers: they
    differ by at most [n * 2 ^ -50] times the larger. *)
Lemma fold_orders_agree (h : store) (l1 l2 : list ptr) :
  Forall spec.constructed h -> Permutation l1 l2 ->
  is_finite (spec.left_fold h l1) = true ->
  is_finite (spec.left_fold h l2) = true ->
  (Rabs (SF2R (spec.left_fold h l1) - SF2R (spec.left_fold h l2))
   <= INR (List.length l1) * bpow (-50)
      * Rmax (Rabs (SF2R (spec.left_fold h l1)))
             (Rabs (SF2R (spec.left_fold h l2))))%R.
Proof.
  intros Hh Hperm F1 F2. unfold spec.left_fold in *.
  assert (HS1 : (0 <= SF2R (fold_left (fun acc p => dadd acc (spec.perimeter h p))
                              l1 pzero))%R)
    by (apply not_negative_value, fold_not_negative; [assumption|reflexivity]).
  assert (HS2 : (0 <= SF2R (fold_left (fun acc p => dadd acc (spec.perimeter h p))
                              l2 pzero))%R)
    by (apply not_negative_value, fold_not_negative; [assumption|reflexivity]).
  pose proof (fold_error h _ pzero Hh eq_refl eq_refl F1) as [L1 U1].
  pose proof (fold_error h _ pzero Hh eq_refl eq_refl F2) as [L2 U2].
  rewrite <- (Permutation_length Hperm) in L2, U2.
  rewrite <- (exact_sum_perm h _ _ Hperm) in L2, U2.
  pose proof (exact_sum_nonneg h l1 Hh) as HT.
  cbn [SF2R pzero] in L1, U1, L2, U2. rewrite Rplus_0_l in L1, U1, L2, U2.
  set (n := List.length l1) in *.
  set (T := spec.exact_sum h l1) in *.
  set (S1 := SF2R (fold_left _ l1 pzero)) in *.
  set (S2 := SF2R (fold_left _ l2 pzero)) in *.
  rewrite (Rabs_pos_eq S1), (Rabs_pos_eq S2) by assumption.
  pose proof (Rmax_l S1 S2) as M1. pose proof (Rmax_r S1 S2) as M2.
  set (M := Rmax S1 S2) in *.
  assert (H50 : bpow (-50) = (8 * bpow (-53))%R).
  { change (-50) with (3 + -53). rewrite bpow_add.
    change (bpow 3) with (2 * (2 * (2 * 1)))%R. ring. }
  rewrite H50. pose proof bpow_m53 as Hu.
  set (u := bpow (-53)) in *.
  replace (INR n * (8 * u))%R with (8 * (INR n * u))%R by ring.
  pose proof (pos_INR n) as Hn0.
  assert (Hu01 : (0 <= u <= 1)%R) by (rewrite Hu; lra).
  set (w := (INR n * u)%R) in *.
  assert (Hw0 : (0 <= w)%R) by (unfold w; nra).
  destruct (Rle_lt_dec (2 * w) 1) as [Hnu|Hbig].
  - (* few shapes: the error analysis *)
    pose proof (pow_one_plus u n (proj1 Hu01) Hnu) as Hup.
    pose proof (pow_one_minus u n Hu01) as Hlow.
    fold w in Hup, Hlow.
    set (P1 := ((1 - u) ^ n)%R) in *. set (P2 := ((1 + u) ^ n)%R) in *.
    assert (Q1 : ((1 - w) * T <= P1 * T)%R)
      by (apply Rmult_le_compat_r; lra).
    assert (Q2 : (P2 * T <= (1 + 2 * w) * T)%R)
      by (apply Rmult_le_compat_r; lra).
    assert (B1 : ((1 - w) * T <= S1 <= (1 + 2 * w) * T)%R) by lra.
    assert (B2 : ((1 - w) * T <= S2 <= (1 + 2 * w) * T)%R) by lra.
    assert (HwT : (0 <= w * T)%R) by nra.
    assert (HwwT : (w * (w * T) <= w * T / 2)%R) by nra.
    assert (HwS1 : (w * T / 2 <= w * S1)%R) by nra.
    assert (HwS2 : (w * T / 2 <= w * S2)%R) by nra.
    assert (HwM1 : (w * S1 <= w * M)%R) by nra.
    assert (HwM2 : (w * S2 <= w * M)%R) by nra.
    apply Rabs_le. split; nra.
  - (* so many shapes that the tolerance exceeds 1 *)
    assert (HM : (0 <= M)%R) by lra.
    assert (M <= 8 * w * M)%R by nra.
    apply Rabs_le. split; lra.
Qed.

(** C9, as amended.  For shapes that their constructors returned, in
    two insertion orders: when both sums are numbers, they agree within
    the relative tolerance [n * 2 ^ -50], [n] being the number of
    shapes. *)
Theorem scene_sums_agree (h : store) (sc1 sc2 : scene.t) :
  Forall spec.constructed h ->
  Forall (spec.live h) (scene.shapes_ sc1) ->
  Permutation (scene.shapes_ sc1) (scene.shapes_ sc2) ->
  is_finite (spec.left_fold h (scene.shapes_ sc1)) = true ->
  is_finite (spec.left_fold h (scene.shapes_ sc2)) = true ->
  exists s1 s2 : double,
    scene.get_circumference sc1 h = Some ((s1, sc1), h) /\
    scene.get_circumference sc2 h = Some ((s2, sc2), h) /\
    spec.agree (INR (List.length (scene.shapes_ sc1)) * bpow (-50)) s1 s2.
Proof.
  intros Hh Hl1 Hperm F1 F2.
  assert (Hl2 : Forall (spec.live h) (scene.shapes_ sc2))
    by (eapply Permutation_Forall; eassumption).
  exists (spec.left_fold h (scene.shapes_ sc1)),
         (spec.left_fold h (scene.shapes_ sc2)).
  split; [apply scene_get_circumference_live; assumption|].
  split; [apply scene_get_circumference_live; assumption|].
  right. split; [assumption|]. split; [assumption|].
  apply fold_orders_agree; assumption.
Qed.

Lemma scene_sums_agree_witness :
  exists s1 s2 : double,
    scene.get_circumference {| scene.shapes_ := [0%nat; 1%nat] |}
      [a_circle {| circle.r_ := double_of_int 1 |};
       a_square {| square.side_ := double_of_int 1 |}]
    = Some ((s1, {| scene.shapes_ := [0%nat; 1%nat] |}),
            [a_circle {| circle.r_ := double_of_int 1 |};
             a_square {| square.side_ := double_of_int 1 |}]) /\
    scene.get_circumference {| scene.shapes_ := [1%nat; 0%nat] |}
      [a_circle {| circle.r_ := double_of_int 1 |};
       a_square {| square.side_ := double_of_int 1 |}]
    = Some ((s2, {| scene.shapes_ := [1%nat; 0%nat] |}),
            [a_circle {| circle.r_ := double_of_int 1 |};
             a_square {| square.side_ := double_of_int 1 |}]) /\
    spec.agree (INR 2 * bpow (-50)) s1 s2.
Proof.
  apply (scene_sums_agree
           [a_circle {| circle.r_ := double_of_int 1 |};
            a_square {| square.side_ := double_of_int 1 |}]
           {| scene.shapes_ := [0%nat; 1%nat] |}
           {| scene.shapes_ := [1%nat; 0%nat] |}).
  - repeat constructor.
  - repeat constructor.
  - apply perm_swap.
  - vm_compute. reflexivity.
  - vm_compute. reflexivity.
Defined.

(** C9, as stated, fails when one order overflows: a square of
    perimeter [(2 ^ 53 - 1) * 2 ^ 971], the largest [double], and two
    squares of perimeter [2 ^ 969] sum to the largest [double] in one
    order and to infinity in the other. *)
Lemma scene_sums_disagree :
  let A := a_square {| square.side_ := S754_finite false 9007199254740991 969 |} in
  let B := a_square {| square.side_ := S754_finite false 4503599627370496 915 |} in
  let h := [A; B] in
  let sc1 := {| scene.shapes_ := [0%nat; 1%nat; 1%nat] |} in
  let sc2 := {| scene.shapes_ := [1%nat; 1%nat; 0%nat] |} in
  Forall spec.constructed h /\
  Forall (fun o => is_double (fst (get_circumference o))) h /\
  Permutation (scene.shapes_ sc1) (scene.shapes_ sc2) /\
  scene.get_circumference sc1 h
  = Some ((S754_finite false 9007199254740991 971, sc1), h) /\
  scene.get_circumference sc2 h = Some ((S754_infinity false, sc2), h) /\
  forall tol : R,
    ~ spec.agree tol (S754_finite false 9007199254740991 971)
        (S754_infinity false).
Proof.
  cbv zeta. split; [repeat constructor|]. split; [repeat constructor|].
  split; [apply (Permutation_cons_append [1%nat; 1%nat] 0%nat)|].
  split; [vm_compute; reflexivity|]. split; [vm_compute; reflexivity|].
  intros tol [H|(_ & H & _)]; discriminate.
Qed.


(** * Further properties of the shapes and of the scene *)

(** ** Signs of perimeters *)

(** X1.  The perimeter of a shape that its constructor returned is never
    negative: it is a zero, a positive number, plus infinity or NaN. *)
Theorem constructed_perimeter_not_negative (o : shape) :
  spec.constructed o ->
  spec.strictly_negative (fst (get_circumference o)) = false /\
  (0 <= SF2R (fst (get_circumference o)))%R.
Proof.
  intros Ho. pose proof (get_circumference_not_negative o Ho) as Hn.
  split; [exact Hn|apply not_negative_value, Hn].
Qed.

Lemma constructed_perimeter_not_negative_witness :
  spec.strictly_negative
    (fst (get_circumference (a_circle {| circle.r_ := double_of_int 1 |})))
  = false /\
  (0 <= SF2R (fst (get_circumference
                     (a_circle {| circle.r_ := double_of_int 1 |}))))%R.
Proof.
  exact (constructed_perimeter_not_negative
           (a_circle {| circle.r_ := double_of_int 1 |}) eq_refl).
Defined.

(** X2.  The perimeter of a scene of shapes that their constructors
    returned is never negative, whatever the number and the order of the
    shapes. *)
Theorem scene_perimeter_not_negative (h : store) (sc : scene.t) :
  Forall spec.constructed h ->
  Forall (spec.live h) (scene.shapes_ sc) ->
  exists x : double,
    scene.get_circumference sc h = Some ((x, sc), h) /\
    spec.strictly_negative x = false /\ (0 <= SF2R x)%R.
Proof.
  intros Hh Hl. exists (spec.left_fold h (scene.shapes_ sc)).
  split; [apply scene_get_circumference_live, Hl|].
  assert (Hn : spec.strictly_negative (spec.left_fold h (scene.shapes_ sc))
               = false)
    by (apply fold_not_negative; [exact Hh|reflexivity]).
  split; [exact Hn|apply not_negative_value, Hn].
Qed.

Lemma scene_perimeter_not_negative_witness :
  exists x : double,
    scene.get_circumference {| scene.shapes_ := [0%nat; 0%nat] |}
      [a_square {| square.side_ := double_of_int 1 |}]
    = Some ((x, {| scene.shapes_ := [0%nat; 0%nat] |}),
            [a_square {| square.side_ := double_of_int 1 |}]) /\
    spec.strictly_negative x = false /\ (0 <= SF2R x)%R.
Proof.
  apply (scene_perimeter_not_negative
           [a_square {| square.side_ := double_of_int 1 |}]
           {| scene.shapes_ := [0%nat; 0%nat] |}).
  - repeat constructor.
  - repeat constructor.
Defined.

(** ** Building a scene *)

Lemma add_shapes_from (l : list ptr) (sc : scene.t) :
  scene.shapes_ (fold_left (fun sc p => snd (scene.add_shape p sc)) l sc)
  = scene.shapes_ sc ++ l.
Proof.
  revert sc. induction l as [|p l IH]; intros sc; cbn [fold_left].
  - symmetry. apply app_nil_r.
  - rewrite IH. cbn [scene.add_shape snd scene.shapes_].
    rewrite <- app_assoc. reflexivity.
Qed.

(** X3.  A scene built by [add_shape] of a list of pointers, one after the
    other, holds exactly that list, in that order, duplicates included;
    its perimeter is the left fold of the list. *)
Theorem scene_of_list (h : store) (l : list ptr) :
  Forall (spec.live h) l ->
  scene.shapes_ (scene_of l) = l /\
  scene.get_circumference (scene_of l) h
  = Some ((spec.left_fold h l, scene_of l), h).
Proof.
  intros Hl.
  assert (Hs : scene.shapes_ (scene_of l) = l) by apply add_shapes_from.
  split; [exact Hs|].
  rewrite scene_get_circumference_live; rewrite Hs; [reflexivity|exact Hl].
Qed.

Lemma scene_of_list_witness :
  scene.shapes_ (scene_of [1%nat; 0%nat; 1%nat]) = [1%nat; 0%nat; 1%nat] /\
  scene.get_circumference (scene_of [1%nat; 0%nat; 1%nat])
    [a_circle {| circle.r_ := double_of_int 1 |};
     a_square {| square.side_ := double_of_int 1 |}]
  = Some ((spec.left_fold
             [a_circle {| circle.r_ := double_of_int 1 |};
              a_square {| square.side_ := double_of_int 1 |}]
             [1%nat; 0%nat; 1%nat],
           scene_of [1%nat; 0%nat; 1%nat]),
          [a_circle {| circle.r_ := double_of_int 1 |};
           a_square {| square.side_ := double_of_int 1 |}]).
Proof.
  apply (scene_of_list
           [a_circle {| circle.r_ := double_of_int 1 |};
            a_square {| square.side_ := double_of_int 1 |}]
           [1%nat; 0%nat; 1%nat]).
  repeat constructor.
Defined.

(** ** Infinities and NaN in a scene *)

Lemma get_circumference_nan (o : shape) :
  dimension o = nan -> fst (get_circumference o) = nan.
Proof.
  destruct o as [[r]|[side]|[side]]; cbn [dimension circle.r_ square.side_
    equilateral_triangle.side_]; intros ->; reflexivity.
Qed.

Lemma fold_nan (h : store) (l : list ptr) :
  fold_left (fun acc p => dadd acc (spec.perimeter h p)) l nan = nan.
Proof. induction l as [|p l IH]; [reflexivity|exact IH]. Qed.

Lemma dadd_nan_r (a : double) : dadd a nan = nan.
Proof. destruct a; reflexivity. Qed.

Lemma fold_with_nan (h : store) (l : list ptr) (p : ptr) (a : double) :
  In p l -> spec.perimeter h p = nan ->
  fold_left (fun acc q => dadd acc (spec.perimeter h q)) l a = nan.
Proof.
  revert a. induction l as [|q l IH]; intros a Hin Hp; [destruct Hin|].
  cbn [fold_left]. destruct Hin as [->|Hin].
  - rewrite Hp, dadd_nan_r. apply fold_nan.
  - apply IH; assumption.
Qed.

(** X4.  A scene that holds a shape of NaN dimension has the perimeter
    NaN, whatever else it holds and wherever the shape is in the
    sequence. *)
Theorem scene_with_nan_shape (h : store) (sc : scene.t) (p : ptr) (o : shape) :
  Forall (spec.live h) (scene.shapes_ sc) ->
  In p (scene.shapes_ sc) -> nth_error h p = Some o -> dimension o = nan ->
  scene.get_circumference sc h = Some ((nan, sc), h).
Proof.
  intros Hl Hin Ho Hd.
  rewrite scene_get_circumference_live by exact Hl.
  unfold spec.left_fold. rewrite (fold_with_nan h _ p pzero Hin); [reflexivity|].
  unfold spec.perimeter. rewrite Ho. apply get_circumference_nan, Hd.
Qed.

Lemma scene_with_nan_shape_witness :
  scene.get_circumference {| scene.shapes_ := [0%nat; 1%nat; 0%nat] |}
    [a_square {| square.side_ := double_of_int 1 |};
     a_circle {| circle.r_ := nan |}]
  = Some ((nan, {| scene.shapes_ := [0%nat; 1%nat; 0%nat] |}),
          [a_square {| square.side_ := double_of_int 1 |};
           a_circle {| circle.r_ := nan |}]).
Proof.
  apply (scene_with_nan_shape
           [a_square {| square.side_ := double_of_int 1 |};
            a_circle {| circle.r_ := nan |}]
           {| scene.shapes_ := [0%nat; 1%nat; 0%nat] |}
           1%nat (a_circle {| circle.r_ := nan |})).
  - repeat constructor.
  - right. left. reflexivity.
  - reflexivity.
  - reflexivity.
Defined.

Lemma fold_finite_all (h : store) (l : list ptr) (a : double) :
  is_finite (fold_left (fun acc p => dadd acc (spec.perimeter h p)) l a) = true ->
  Forall (fun p => is_finite (spec.perimeter h p) = true) l.
Proof.
  revert a. induction l as [|p l IH]; intros a Hfin; [constructor|].
  cbn [fold_left] in Hfin. constructor.
  - apply fold_finite_start in Hfin. apply SFadd_finite_inv in Hfin. tauto.
  - eapply IH, Hfin.
Qed.

(** X5.  When the perimeter of a scene is a number, the perimeter of
    every shape it holds is a number: an infinite or NaN perimeter of one
    shape is never lost in the sum. *)
Theorem finite_scene_has_finite_shapes (h : store) (sc : scene.t) :
  Forall (spec.live h) (scene.shapes_ sc) ->
  forall (x : double) (sc' : scene.t) (h' : store),
    scene.get_circumference sc h = Some ((x, sc'), h') ->
    is_finite x = true ->
    Forall (fun p => is_finite (spec.perimeter h p) = true) (scene.shapes_ sc).
Proof.
  intros Hl x sc' h' Hq Hfin.
  rewrite scene_get_circumference_live in Hq by exact Hl.
  injection Hq as <- _ _. eapply fold_finite_all, Hfin.
Qed.

Lemma finite_scene_has_finite_shapes_witness :
  Forall (fun p => is_finite
                     (spec.perimeter
                        [a_square {| square.side_ := double_of_int 1 |}] p)
                   = true) [0%nat].
Proof.
  apply (finite_scene_has_finite_shapes
           [a_square {| square.side_ := double_of_int 1 |}]
           {| scene.shapes_ := [0%nat] |}
           (Forall_cons 0%nat (Nat.lt_0_succ 0) (Forall_nil _))
           (double_of_int 4) {| scene.shapes_ := [0%nat] |}
           [a_square {| square.side_ := double_of_int 1 |}]).
  - vm_compute. reflexivity.
  - reflexivity.
Defined.

(** ** More on rounding: exact cases, zeros and monotony *)

Lemma rne_exact_multiple (X n : Z) :
  0 <= n -> X mod 2 ^ n = 0 -> rne X n * 2 ^ n = X.
Proof.
  intros Hn Hm. unfold rne. rewrite Hm.
  assert (Hp : 0 < 2 ^ n) by (apply Z.pow_pos_nonneg; lia).
  assert (Hc : (2 * 0 ?= 2 ^ n) = Lt) by (apply Z.compare_lt_iff; lia).
  rewrite Hc. pose proof (Z.div_mod X (2 ^ n) ltac:(lia)). lia.
Qed.

Lemma least_float_le (m : positive) (e emin : Z) :
  emin <= e -> (bpow emin <= IZR (Zpos m) * bpow e)%R.
Proof.
  intros He. pose proof (bpow_le emin e He). pose proof (bpow_pos e).
  assert (1 <= IZR (Zpos m))%R by (apply IZR_le; lia). nra.
Qed.

Section RoundingMore.

Variables prec emax : Z.
Hypothesis prec_pos : 0 < prec.
Hypothesis emax_big : 2 <= emax.

Local Abbreviation fexp := (fexp prec emax).
Local Abbreviation emin := (emin prec emax).
Local Abbreviation bra := (binary_round_aux prec emax).

Lemma bounded_canonical (m : positive) (e : Z) :
  bounded prec emax m e = true -> fexp (Zdigits2 (Zpos m) + e) = e.
Proof using prec_pos emax_big.
  unfold bounded, canonical_mantissa. intros H.
  apply andb_true_iff in H as [H _]. apply Z.eqb_eq in H. exact H.
Qed.

(** A float times a power of two is a float, unless it overflows. *)
Lemma binary_round_scaled (s : bool) (m K : positive) (e k : Z) :
  bounded prec emax m e = true -> 0 <= k -> Zpos K = Zpos m * 2 ^ k ->
  is_finite (binary_round prec emax s K e) = true ->
  SF2R (binary_round prec emax s K e)
  = (sign s * (IZR (Zpos K) * bpow e))%R.
Proof using prec_pos emax_big.
  intros Hb Hk HK Hfin.
  pose proof (bounded_canonical m e Hb) as Hc.
  pose proof (Zdigits2_mul_pow2 m K k Hk HK) as HdK.
  set (t := fexp (Zdigits2 (Zpos K) + e)).
  assert (Ht : e <= t <= e + k).
  { unfold t. rewrite HdK. unfold SpecFloat.fexp in *. lia. }
  rewrite binary_round_no_shift in * by (assumption || (fold t; lia)).
  rewrite bra_value by (assumption || (fold t; lia)). fold t.
  f_equal.
  assert (Hm : Zpos K mod 2 ^ (t - e) = 0).
  { rewrite HK. replace k with (k - (t - e) + (t - e)) by lia.
    rewrite Z.pow_add_r, Z.mul_assoc by lia. apply Z.mod_mul.
    apply Z.pow_nonzero; lia. }
  pose proof (rne_exact_multiple (Zpos K) (t - e) ltac:(lia) Hm) as Hq.
  rewrite <- Hq at 2. rewrite mult_IZR, bpow_IZR by lia.
  replace t with (t - e + e) at 2 by lia. rewrite bpow_add. ring.
Qed.

(** A value that is at least the least positive float does not round to
    zero: the result is a number of the same sign, or an infinity. *)
Lemma binary_round_not_zero (s : bool) (m : positive) (e : Z) :
  (bpow emin <= IZR (Zpos m) * bpow e)%R ->
  is_zero (binary_round prec emax s m e) = false /\
  binary_round prec emax s m e <> S754_nan.
Proof using prec_pos emax_big.
  intros Hv.
  destruct (binary_round_same_value prec emax prec_pos emax_big s m e)
    as (mz & ez & Hval & Hd & _ & Hle & ->).
  rewrite <- Hval in Hv.
  destruct (bra_spec prec emax prec_pos emax_big s mz ez Hle)
    as [[Hq _]|(m' & e' & _ & _ & _ & ->)].
  - exfalso. set (t := fexp (Zdigits2 (Zpos mz) + ez)) in *.
    assert (Hn : 2 ^ (t - ez) <= Zpos mz).
    { destruct (Z.eq_dec t emin) as [Ht|Ht].
      - apply le_IZR. rewrite bpow_IZR by lia.
        apply (Rmult_le_reg_r (bpow ez)); [apply bpow_pos|].
        rewrite <- bpow_add. replace (t - ez + ez) with emin by lia. exact Hv.
      - pose proof (Zdigits2_bounds mz) as [Hl _].
        pose proof (Zdigits2_pos mz).
        assert (t = Zdigits2 (Zpos mz) + ez - prec)
          by (unfold t, SpecFloat.fexp in *; fold emin in *; lia).
        assert (2 ^ (t - ez) <= 2 ^ (Zdigits2 (Zpos mz) - 1))
          by (apply Z.pow_le_mono_r; lia).
        lia. }
    pose proof (rne_floor (Zpos mz) (t - ez)) as [Hfl _].
    assert (Hp : 0 < 2 ^ (t - ez)) by (apply Z.pow_pos_nonneg; lia).
    assert (1 <= Zpos mz / 2 ^ (t - ez))
      by (apply Z.div_le_lower_bound; lia).
    lia.
  - destruct (e' <=? emax - prec); split; (reflexivity || discriminate).
Qed.

(** The rounded sum of a float and a number that is not negative is at
    least the float. *)
Lemma binary_round_ge_float (ma A S : positive) (ea ez : Z) :
  bounded prec emax ma ea = true -> ez <= ea ->
  Zpos A = Zpos ma * 2 ^ (ea - ez) -> Zpos A <= Zpos S ->
  is_finite (binary_round prec emax false S ez) = true ->
  (IZR (Zpos ma) * bpow ea <= SF2R (binary_round prec emax false S ez))%R.
Proof using prec_pos emax_big.
  intros Hb Hez HA HAS Hfin.
  pose proof (bounded_canonical ma ea Hb) as Hc.
  pose proof (bounded_emin prec emax prec_pos emax_big ma ea Hb) as Hem.
  pose proof (Zdigits2_mul_pow2 ma A (ea - ez) ltac:(lia) HA) as HdA.
  pose proof (Zdigits2_mono A S HAS) as HdS.
  pose proof (Zdigits2_pos ma) as Hdma.
  set (dS := Zdigits2 (Zpos S)) in *.
  set (t := fexp (dS + ez)).
  assert (Ht : ea <= t).
  { rewrite <- Hc. apply fexp_mono. lia. }
  rewrite binary_round_no_shift in * by (assumption || (fold dS; fold t; lia)).
  rewrite bra_value by (assumption || (fold dS; fold t; lia)).
  fold dS. fold t. unfold sign. rewrite Rmult_1_l.
  destruct (Z.eq_dec t ea) as [Heq|Hne].
  - (* same exponent: the floor of the sum is at least the significand *)
    rewrite Heq.
    assert (Hp : 0 < 2 ^ (ea - ez)) by (apply Z.pow_pos_nonneg; lia).
    pose proof (rne_floor (Zpos S) (ea - ez)) as [Hfl _].
    assert (Zpos ma <= Zpos S / 2 ^ (ea - ez))
      by (apply Z.div_le_lower_bound; lia).
    apply Rmult_le_compat_r; [left; apply bpow_pos|].
    apply IZR_le. lia.
  - (* a larger exponent: the sum is at least the next power of two *)
    assert (Htv : t = dS + ez - prec)
      by (unfold t, SpecFloat.fexp in *; fold emin in *; lia).
    assert (Hg : Zdigits2 (Zpos ma) + ea < dS + ez).
    { destruct (Z.lt_ge_cases (Zdigits2 (Zpos ma) + ea) (dS + ez)) as [|Hge];
        [assumption|].
      assert (dS + ez = Zdigits2 (Zpos ma) + ea) by lia.
      exfalso. apply Hne. unfold t. rewrite H. exact Hc. }
    pose proof (Zdigits2_bounds S) as [HSl _]. fold dS in HSl.
    pose proof (rne_ge_pow (Zpos S) (t - ez) (dS - 1) ltac:(lia) HSl) as Hq.
    apply IZR_le in Hq. rewrite bpow_IZR in Hq by lia.
    pose proof (IZR_pos_bounds ma) as [_ Hma].
    pose proof (bpow_pos ea). pose proof (bpow_pos t).
    assert (H1 : (IZR (Zpos ma) * bpow ea
                  <= bpow (Zdigits2 (Zpos ma) + ea))%R).
    { rewrite bpow_add. nra. }
    assert (H2 : (bpow (Zdigits2 (Zpos ma) + ea) <= bpow (dS - 1 + ez))%R)
      by (apply bpow_le; lia).
    assert (H3 : (bpow (dS - 1 + ez)
                  <= IZR (rne (Zpos S) (t - ez)) * bpow t)%R).
    { replace (dS - 1 + ez) with (dS - 1 - (t - ez) + t) by lia.
      rewrite bpow_add. apply Rmult_le_compat_r; [lra|exact Hq]. }
    lra.
Qed.

End RoundingMore.

(** ** Accuracy and range of the perimeters *)

(** X6.  The perimeter of an equilateral triangle is within [2 ^ -53],
    relatively, of 3 times its side, whenever it is a number: at all
    sides, the very small ones included. *)
Theorem triangle_relative_error (side : double) :
  is_double side ->
  is_finite (fst (equilateral_triangle.get_circumference
                    {| equilateral_triangle.side_ := side |})) = true ->
  (Rabs (SF2R (fst (equilateral_triangle.get_circumference
                      {| equilateral_triangle.side_ := side |}))
         - 3 * SF2R side)
   <= bpow (-53) * Rabs (3 * SF2R side))%R.
Proof.
  intros Hside. exact (proj2 (square_and_triangle_perimeter_error side Hside)).
Qed.

Lemma triangle_relative_error_witness :
  (Rabs (SF2R (fst (equilateral_triangle.get_circumference
                      {| equilateral_triangle.side_ := double_of_int 1 |}))
         - 3 * SF2R (double_of_int 1))
   <= bpow (-53) * Rabs (3 * SF2R (double_of_int 1)))%R.
Proof.
  exact (triangle_relative_error (double_of_int 1) eq_refl eq_refl).
Defined.

(** X7.  The perimeter of a square is exactly 4 times its side, whenever
    it is a number: the product by 4 is never rounded. *)
Theorem square_perimeter_exact (side : double) :
  is_double side ->
  is_finite (fst (square.get_circumference {| square.side_ := side |})) = true ->
  SF2R (fst (square.get_circumference {| square.side_ := side |}))
  = (4 * SF2R side)%R.
Proof.
  intros Hside Hfin.
  cbn [square.get_circumference fst square.side_] in *.
  rewrite (literal_times_double 4) in * by (assumption || (vm_compute; discriminate)).
  destruct side as [s|s| |s m e]; try (destruct s; discriminate);
    try discriminate.
  - destruct s; cbn; ring.
  - rewrite (literal_times_double_round 4) in *
      by (assumption || (vm_compute; discriminate)).
    rewrite (binary_round_scaled 53 1024 ltac:(lia) ltac:(lia) s m (4 * m) e 2);
      try assumption; try lia.
    cbn [SF2R]. rewrite Pos2Z.inj_mul, mult_IZR. ring.
Qed.

Lemma square_perimeter_exact_witness :
  SF2R (fst (square.get_circumference
               {| square.side_ := S754_finite false 1 (-1074) |}))
  = (4 * SF2R (S754_finite false 1 (-1074)))%R.
Proof.
  exact (square_perimeter_exact (S754_finite false 1 (-1074)) eq_refl eq_refl).
Defined.

(** X8.  The perimeter of a circle of a finite radius up to [2 ^ 1020]
    is a number: the product does not overflow. *)
Theorem circle_perimeter_no_overflow (r : double) :
  is_double r -> is_finite r = true -> spec.strictly_negative r = false ->
  (SF2R r <= bpow 1020)%R ->
  is_finite (fst (circle.get_circumference {| circle.r_ := r |})) = true.
Proof. exact (circle_perimeter_finite r). Qed.

Lemma circle_perimeter_no_overflow_witness :
  is_finite (fst (circle.get_circumference
                    {| circle.r_ := S754_finite false 4503599627370496 968 |}))
  = true.
Proof.
  apply (circle_perimeter_no_overflow (S754_finite false 4503599627370496 968));
    try reflexivity.
  cbn [SF2R]. unfold sign. rewrite Rmult_1_l.
  change 4503599627370496 with (2 ^ 52). rewrite bpow_IZR, <- bpow_add by lia.
  apply bpow_le. lia.
Defined.

(** X9.  The perimeter of a scene of at most [2 ^ 52] shapes that their
    constructors returned is, when it is a number, within [n * 2 ^ -52],
    relatively, of the exact sum of the perimeters of its shapes, [n]
    being their number. *)
Theorem scene_perimeter_accuracy (h : store) (sc : scene.t) :
  Forall spec.constructed h ->
  Forall (spec.live h) (scene.shapes_ sc) ->
  Z.of_nat (List.length (scene.shapes_ sc)) <= 2 ^ 52 ->
  is_finite (spec.left_fold h (scene.shapes_ sc)) = true ->
  exists x : double,
    scene.get_circumference sc h = Some ((x, sc), h) /\
    (Rabs (SF2R x - spec.exact_sum h (scene.shapes_ sc))
     <= INR (List.length (scene.shapes_ sc)) * bpow (-52)
        * spec.exact_sum h (scene.shapes_ sc))%R.
Proof.
  intros Hh Hl Hlen Hfin. exists (spec.left_fold h (scene.shapes_ sc)).
  split; [apply scene_get_circumference_live, Hl|].
  unfold spec.left_fold in *.
  pose proof (fold_error h _ pzero Hh eq_refl eq_refl Hfin) as [L U].
  pose proof (exact_sum_nonneg h (scene.shapes_ sc) Hh) as HT.
  cbn [SF2R pzero] in L, U. rewrite Rplus_0_l in L, U.
  set (n := List.length (scene.shapes_ sc)) in *.
  set (T := spec.exact_sum h (scene.shapes_ sc)) in *.
  set (S1 := SF2R (fold_left _ (scene.shapes_ sc) pzero)) in *.
  assert (Hn : (0 <= INR n <= 4503599627370496)%R).
  { split; [apply pos_INR|]. rewrite INR_IZR_INZ. apply IZR_le. exact Hlen. }
  assert (H52 : bpow (-52) = (2 * bpow (-53))%R).
  { change (-52) with (1 + -53). rewrite bpow_add.
    change (bpow 1) with (2 * 1)%R. ring. }
  rewrite H52. pose proof bpow_m53 as Hu.
  set (u := bpow (-53)) in *.
  assert (Hu01 : (0 <= u <= 1)%R) by (rewrite Hu; lra).
  assert (Hnu : (2 * (INR n * u) <= 1)%R) by (rewrite Hu; lra).
  pose proof (pow_one_plus u n (proj1 Hu01) Hnu) as Hup.
  pose proof (pow_one_minus u n Hu01) as Hlow.
  set (w := (INR n * u)%R) in *.
  set (P1 := ((1 - u) ^ n)%R) in *. set (P2 := ((1 + u) ^ n)%R) in *.
  assert (Q1 : ((1 - w) * T <= P1 * T)%R)
    by (apply Rmult_le_compat_r; lra).
  assert (Q2 : (P2 * T <= (1 + 2 * w) * T)%R)
    by (apply Rmult_le_compat_r; lra).
  replace (INR n * (2 * u) * T)%R with (2 * w * T)%R by (unfold w; ring).
  assert (0 <= w * T)%R by (unfold w; nra).
  apply Rabs_le. split; lra.
Qed.

Lemma scene_perimeter_accuracy_witness :
  exists x : double,
    scene.get_circumference {| scene.shapes_ := [0%nat; 1%nat] |}
      [a_circle {| circle.r_ := double_of_int 1 |};
       a_square {| square.side_ := double_of_int 1 |}]
    = Some ((x, {| scene.shapes_ := [0%nat; 1%nat] |}),
            [a_circle {| circle.r_ := double_of_int 1 |};
             a_square {| square.side_ := double_of_int 1 |}]) /\
    (Rabs (SF2R x
           - spec.exact_sum
               [a_circle {| circle.r_ := double_of_int 1 |};
                a_square {| square.side_ := double_of_int 1 |}]
               [0%nat; 1%nat])
     <= INR 2 * bpow (-52)
        * spec.exact_sum
            [a_circle {| circle.r_ := double_of_int 1 |};
             a_square {| square.side_ := double_of_int 1 |}]
            [0%nat; 1%nat])%R.
Proof.
  apply (scene_perimeter_accuracy
           [a_circle {| circle.r_ := double_of_int 1 |};
            a_square {| square.side_ := double_of_int 1 |}]
           {| scene.shapes_ := [0%nat; 1%nat] |}).
  - repeat constructor.
  - repeat constructor.
  - cbn. lia.
  - vm_compute. reflexivity.
Defined.

(** ** Degenerate shapes *)

Lemma literal_product_class (c : positive) (x : double) :
  Zdigits2 (Zpos c) <= 11 -> is_double x ->
  spec.strictly_negative x = false ->
  is_zero (to_double (lmul (long_literal (Zpos c)) (to_long_double x)))
  = is_zero x /\
  (is_finite (to_double (lmul (long_literal (Zpos c)) (to_long_double x)))
   = true -> is_finite x = true).
Proof.
  intros Hc Hx Hn. rewrite literal_times_double by assumption.
  destruct x as [s|s| |s m e].
  - destruct (double_of_int_pos c ltac:(lia)) as (Yc & _ & _ & ->).
    split; reflexivity.
  - destruct (double_of_int_pos c ltac:(lia)) as (Yc & _ & _ & ->).
    split; [reflexivity|discriminate].
  - destruct (double_of_int_pos c ltac:(lia)) as (Yc & _ & _ & ->).
    split; [reflexivity|discriminate].
  - rewrite literal_times_double_round by assumption.
    pose proof (is_double_finite s m e Hx) as (_ & _ & He).
    split; [|reflexivity].
    apply (binary_round_not_zero 53 1024); try lia.
    apply least_float_le. change (emin 53 1024) with (-1074). lia.
Qed.

Lemma circle_class (r : double) :
  is_double r -> spec.strictly_negative r = false ->
  is_zero (fst (circle.get_circumference {| circle.r_ := r |})) = is_zero r /\
  (is_finite (fst (circle.get_circumference {| circle.r_ := r |})) = true ->
   is_finite r = true).
Proof.
  intros Hr Hn. destruct r as [s|s| |s m e].
  - destruct s; split; reflexivity.
  - destruct s; [discriminate|]. split; [reflexivity|discriminate].
  - split; [reflexivity|discriminate].
  - split; [|reflexivity].
    assert (Hr0 : (0 < SF2R (S754_finite s m e))%R).
    { destruct s; [discriminate|]. cbn [SF2R]. unfold sign.
      pose proof (bpow_pos e). assert (0 < IZR (Zpos m))%R by (apply IZR_lt; lia).
      nra. }
    pose proof (SF2R_double_least _ Hr Hr0) as Hlb.
    cbn [circle.get_circumference fst circle.r_ is_zero].
    rewrite two_pi_long_double.
    destruct (circle_product _ Hr Hr0) as [FL E1].
    rewrite two_pi_value in E1. apply Rabs_le_inv in E1.
    set (R0 := SF2R (S754_finite s m e)) in *.
    destruct (lmul _ (to_long_double (S754_finite s m e)))
      as [s1|s1| |s1 m1 e1] eqn:HL; try discriminate.
    + cbn [SF2R] in E1. lra.
    + cbn [to_double convert].
      apply (binary_round_not_zero 53 1024); try lia.
      rewrite <- (SF2R_finite_abs s1 m1 e1).
      change (emin 53 1024) with (-1074).
      rewrite Rabs_pos_eq by lra. lra.
Qed.

Lemma constructed_dimension (o : shape) :
  spec.constructed o -> spec.strictly_negative (dimension o) = false.
Proof.
  destruct o as [[r]|[side]|[side]];
    cbn [spec.constructed dimension circle.r_ square.side_
         equilateral_triangle.side_];
    unfold circle.new, square.new, equilateral_triangle.new;
    rewrite dlt_zero; destruct (spec.strictly_negative _);
    (discriminate || reflexivity).
Qed.

(** X10.  The perimeter of a shape that its constructor returned is zero
    exactly when its dimension is zero: no positive dimension, however
    small, gives the perimeter 0.  And a perimeter that is a number comes
    from a dimension that is a number. *)
Theorem perimeter_zero_iff_dimension_zero (o : shape) :
  spec.constructed o -> is_double (dimension o) ->
  is_zero (fst (get_circumference o)) = is_zero (dimension o) /\
  (is_finite (fst (get_circumference o)) = true ->
   is_finite (dimension o) = true).
Proof.
  intros Ho Hd. pose proof (constructed_dimension o Ho) as Hn.
  destruct o as [[r]|[side]|[side]];
    cbn [dimension circle.r_ square.side_ equilateral_triangle.side_] in *.
  - apply circle_class; assumption.
  - apply (literal_product_class 4); try assumption. vm_compute; discriminate.
  - apply (literal_product_class 3); try assumption. vm_compute; discriminate.
Qed.

Lemma perimeter_zero_iff_dimension_zero_witness :
  is_zero (fst (get_circumference
                  (a_circle {| circle.r_ := S754_finite false 1 (-1074) |})))
  = false.
Proof.
  exact (proj1 (perimeter_zero_iff_dimension_zero
                  (a_circle {| circle.r_ := S754_finite false 1 (-1074) |})
                  eq_refl eq_refl)).
Defined.

(** ** Growth of the sum *)

Lemma dadd_ge (x y : double) :
  is_double x -> is_double y ->
  spec.strictly_negative x = false -> spec.strictly_negative y = false ->
  is_finite (dadd x y) = true ->
  (SF2R x <= SF2R (dadd x y))%R /\ (SF2R y <= SF2R (dadd x y))%R.
Proof.
  intros Vx Vy Nx Ny Hfin.
  destruct x as [sx|sx| |sx mx ex], y as [sy|sy| |sy my ey];
    try discriminate;
    try (destruct sx; destruct sy; cbn [dadd SFadd SF2R]; split; lra).
  - destruct sy; [discriminate|]. cbn [dadd SFadd SF2R]. unfold dadd. cbn [SFadd].
    pose proof (value_nonneg my ey). cbn [SF2R]. unfold sign. split; lra.
  - destruct sx; [discriminate|]. unfold dadd. cbn [SFadd].
    pose proof (value_nonneg mx ex). cbn [SF2R]. unfold sign. split; lra.
  - destruct sx; [discriminate|]. destruct sy; [discriminate|].
    unfold is_double, in_format in Vx, Vy. cbn [valid_binary] in Vx, Vy.
    unfold dadd in *. cbn [SFadd cond_Zopp] in *.
    set (ez := Z.min ex ey) in *.
    destruct (shl_align_spec mx ex ez) as (mx' & Hsx & Hmx).
    destruct (shl_align_spec my ey ez) as (my' & Hsy & Hmy).
    rewrite Hsx, Hsy in *. cbn [fst] in *.
    change (Zpos mx' + Zpos my') with (Zpos (mx' + my')) in *.
    cbn [binary_normalize] in *.
    replace (Z.min ex ez) with ez in Hmx by lia.
    replace (Z.min ey ez) with ez in Hmy by lia.
    cbn [SF2R]. unfold sign. rewrite !Rmult_1_l. split.
    + apply (binary_round_ge_float 53 1024 ltac:(lia) ltac:(lia) mx mx');
        try assumption; lia.
    + apply (binary_round_ge_float 53 1024 ltac:(lia) ltac:(lia) my my');
        try assumption; lia.
Qed.

Lemma fold_ge_start (h : store) (l : list ptr) (a : double) :
  Forall spec.constructed h ->
  is_double a -> spec.strictly_negative a = false ->
  is_finite (fold_left (fun acc p => dadd acc (spec.perimeter h p)) l a) = true ->
  (SF2R a <= SF2R (fold_left (fun acc p => dadd acc (spec.perimeter h p)) l a))%R.
Proof.
  intros Hh. revert a. induction l as [|p l IH]; intros a Va Na Hfin;
    cbn [fold_left] in *; [lra|].
  pose proof (perimeter_valid h p) as Vc.
  pose proof (perimeter_not_negative h p Hh) as Nc.
  pose proof (fold_finite_start h l _ Hfin) as Fac.
  pose proof (dadd_ge a _ Va Vc Na Nc Fac) as [Hge _].
  specialize (IH (dadd a (spec.perimeter h p)) (dadd_valid _ _ Va Vc)
                 (SFadd_not_negative 53 1024 _ _ Na Nc) Hfin).
  lra.
Qed.

Lemma fold_ge_member (h : store) (l : list ptr) (a : double) (p : ptr) :
  Forall spec.constructed h ->
  is_double a -> spec.strictly_negative a = false ->
  is_finite (fold_left (fun acc q => dadd acc (spec.perimeter h q)) l a) = true ->
  In p l ->
  (SF2R (spec.perimeter h p)
   <= SF2R (fold_left (fun acc q => dadd acc (spec.perimeter h q)) l a))%R.
Proof.
  intros Hh. revert a. induction l as [|q l IH]; intros a Va Na Hfin Hin;
    [destruct Hin|]. cbn [fold_left] in *.
  pose proof (perimeter_valid h q) as Vc.
  pose proof (perimeter_not_negative h q Hh) as Nc.
  pose proof (fold_finite_start h l _ Hfin) as Fac.
  pose proof (dadd_ge a _ Va Vc Na Nc Fac) as [_ Hge].
  destruct Hin as [->|Hin].
  - pose proof (fold_ge_start h l _ Hh (dadd_valid _ _ Va Vc)
                  (SFadd_not_negative 53 1024 _ _ Na Nc) Hfin).
    lra.
  - apply IH; try assumption.
    + apply dadd_valid; assumption.
    + apply SFadd_not_negative; assumption.
Qed.

(** X11.  Adding a shape to a scene never makes its perimeter smaller:
    for shapes that their constructors returned, the perimeter after
    [add_shape], when it is a number, is at least the perimeter before. *)
Theorem add_shape_never_decreases (h : store) (sc : scene.t) (p : ptr) :
  Forall spec.constructed h ->
  Forall (spec.live h) (scene.shapes_ sc) -> spec.live h p ->
  is_finite (spec.left_fold h (scene.shapes_ sc ++ [p])) = true ->
  exists x y : double,
    scene.get_circumference sc h = Some ((x, sc), h) /\
    scene.get_circumference (snd (scene.add_shape p sc)) h
    = Some ((y, snd (scene.add_shape p sc)), h) /\
    (SF2R x <= SF2R y)%R.
Proof.
  intros Hh Hl Hp Hfin.
  exists (spec.left_fold h (scene.shapes_ sc)),
         (spec.left_fold h (scene.shapes_ sc ++ [p])).
  split; [apply scene_get_circumference_live, Hl|].
  split.
  - rewrite scene_get_circumference_live; [reflexivity|].
    cbn. apply Forall_app. split; [exact Hl|]. constructor; [exact Hp|constructor].
  - rewrite left_fold_snoc in *.
    apply dadd_ge; try assumption.
    + apply fold_valid. reflexivity.
    + apply perimeter_valid.
    + apply fold_not_negative; [exact Hh|reflexivity].
    + apply perimeter_not_negative, Hh.
Qed.

Lemma add_shape_never_decreases_witness :
  exists x y : double,
    scene.get_circumference {| scene.shapes_ := [0%nat] |}
      [a_square {| square.side_ := double_of_int 1 |}]
    = Some ((x, {| scene.shapes_ := [0%nat] |}),
            [a_square {| square.side_ := double_of_int 1 |}]) /\
    scene.get_circumference
      (snd (scene.add_shape 0%nat {| scene.shapes_ := [0%nat] |}))
      [a_square {| square.side_ := double_of_int 1 |}]
    = Some ((y, snd (scene.add_shape 0%nat {| scene.shapes_ := [0%nat] |})),
            [a_square {| square.side_ := double_of_int 1 |}]) /\
    (SF2R x <= SF2R y)%R.
Proof.
  apply (add_shape_never_decreases
           [a_square {| square.side_ := double_of_int 1 |}]
           {| scene.shapes_ := [0%nat] |} 0%nat).
  - repeat constructor.
  - repeat constructor.
  - unfold spec.live. cbn. lia.
  - vm_compute. reflexivity.
Defined.

(** X12.  The perimeter of a scene of shapes that their constructors
    returned is, when it is a number, at least the perimeter of each shape
    the scene holds. *)
Theorem scene_perimeter_at_least_each (h : store) (sc : scene.t) (p : ptr) :
  Forall spec.constructed h ->
  Forall (spec.live h) (scene.shapes_ sc) ->
  In p (scene.shapes_ sc) ->
  is_finite (spec.left_fold h (scene.shapes_ sc)) = true ->
  exists x : double,
    scene.get_circumference sc h = Some ((x, sc), h) /\
    (SF2R (spec.perimeter h p) <= SF2R x)%R.
Proof.
  intros Hh Hl Hin Hfin. exists (spec.left_fold h (scene.shapes_ sc)).
  split; [apply scene_get_circumference_live, Hl|].
  apply fold_ge_member; try assumption; reflexivity.
Qed.

Lemma scene_perimeter_at_least_each_witness :
  exists x : double,
    scene.get_circumference {| scene.shapes_ := [0%nat; 1%nat] |}
      [a_circle {| circle.r_ := double_of_int 1 |};
       a_square {| square.side_ := double_of_int 1 |}]
    = Some ((x, {| scene.shapes_ := [0%nat; 1%nat] |}),
            [a_circle {| circle.r_ := double_of_int 1 |};
             a_square {| square.side_ := double_of_int 1 |}]) /\
    (SF2R (spec.perimeter
             [a_circle {| circle.r_ := double_of_int 1 |};
              a_square {| square.side_ := double_of_int 1 |}] 1%nat)
     <= SF2R x)%R.
Proof.
  apply (scene_perimeter_at_least_each
           [a_circle {| circle.r_ := double_of_int 1 |};
            a_square {| square.side_ := double_of_int 1 |}]
           {| scene.shapes_ := [0%nat; 1%nat] |} 1%nat).
  - repeat constructor.
  - repeat constructor.
  - right. left. reflexivity.
  - vm_compute. reflexivity.
Defined.

(** ** Monotony of rounding *)

Lemma rne_mono (X Y n : Z) : 0 <= n -> X <= Y -> rne X n <= rne Y n.
Proof.
  intros Hn HXY.
  assert (Hp : 0 < 2 ^ n) by (apply Z.pow_pos_nonneg; lia).
  pose proof (Z.div_le_mono X Y (2 ^ n) Hp HXY) as Hq.
  pose proof (rne_floor X n) as [HXl HXu]. pose proof (rne_floor Y n) as [HYl HYu].
  destruct (Z.eq_dec (X / 2 ^ n) (Y / 2 ^ n)) as [Heq|Hne]; [|lia].
  pose proof (Z.div_mod X (2 ^ n) ltac:(lia)) as HX.
  pose proof (Z.div_mod Y (2 ^ n) ltac:(lia)) as HY.
  unfold rne. rewrite <- Heq.
  destruct (Z.compare_spec (2 * (X mod 2 ^ n)) (2 ^ n)) as [Hc|Hc|Hc];
    destruct (Z.compare_spec (2 * (Y mod 2 ^ n)) (2 ^ n)) as [Hd|Hd|Hd];
    try destruct (Z.even (X / 2 ^ n)); lia.
Qed.

Lemma rne_nonneg (X n : Z) : 0 <= X -> 0 <= rne X n.
Proof.
  intros HX. pose proof (rne_floor X n) as [Hl _].
  destruct (Z.le_gt_cases 0 n) as [Hn|Hn].
  - assert (0 <= X / 2 ^ n) by (apply Z.div_pos; [lia|apply Z.pow_pos_nonneg; lia]).
    lia.
  - rewrite Z.pow_neg_r in Hl by lia. rewrite Z.div_0_r in Hl. lia.
Qed.

Section Monotony.

Variables prec emax : Z.
Hypothesis prec_pos : 0 < prec.
Hypothesis emax_big : 2 <= emax.

Local Abbreviation fexp := (fexp prec emax).
Local Abbreviation emin := (emin prec emax).
Local Abbreviation bra := (binary_round_aux prec emax).

(** Rounding is monotone: of two values, the larger does not round to
    the smaller float. *)
Lemma bra_monotone (X1 X2 : positive) (E1 E2 : Z) :
  E1 <= fexp (Zdigits2 (Zpos X1) + E1) ->
  E2 <= fexp (Zdigits2 (Zpos X2) + E2) ->
  (IZR (Zpos X1) * bpow E1 <= IZR (Zpos X2) * bpow E2)%R ->
  is_finite (bra false (Zpos X1) E1 loc_Exact) = true ->
  is_finite (bra false (Zpos X2) E2 loc_Exact) = true ->
  (SF2R (bra false (Zpos X1) E1 loc_Exact)
   <= SF2R (bra false (Zpos X2) E2 loc_Exact))%R.
Proof using prec_pos emax_big.
  intros Ht1 Ht2 Hle F1 F2.
  rewrite !bra_value by assumption. unfold sign. rewrite !Rmult_1_l.
  pose proof (IZR_pos_bounds X1) as [Hl1 Hu1].
  pose proof (IZR_pos_bounds X2) as [Hl2 Hu2].
  pose proof (Zdigits2_bounds X1) as [Zl1 Zu1].
  pose proof (Zdigits2_bounds X2) as [Zl2 Zu2].
  pose proof (Zdigits2_pos X1) as Hd1. pose proof (Zdigits2_pos X2) as Hd2.
  set (d1 := Zdigits2 (Zpos X1)) in *. set (d2 := Zdigits2 (Zpos X2)) in *.
  set (t1 := fexp (d1 + E1)) in *. set (t2 := fexp (d2 + E2)) in *.
  pose proof (bpow_pos E1) as HE1. pose proof (bpow_pos E2) as HE2.
  assert (Hg : d1 + E1 <= d2 + E2).
  { assert (Hlt : (bpow (d1 - 1 + E1) < bpow (d2 + E2))%R).
    { rewrite !bpow_add. nra. }
    apply bpow_lt_inv in Hlt. lia. }
  assert (Hq1 : 0 <= rne (Zpos X1) (t1 - E1)) by (apply rne_nonneg; lia).
  assert (Hq2 : 0 <= rne (Zpos X2) (t2 - E2)) by (apply rne_nonneg; lia).
  destruct (Z.eq_dec (d1 + E1) (d2 + E2)) as [Hsame|Hdiff].
  - (* the same binade: the same target exponent *)
    assert (Ht : t1 = t2) by (unfold t1, t2; rewrite Hsame; reflexivity).
    rewrite <- Ht in *.
    apply Rmult_le_compat_r; [left; apply bpow_pos|]. apply IZR_le.
    set (E := Z.min E1 E2).
    replace (t1 - E1) with (t1 - E - (E1 - E)) by lia.
    replace (t1 - E2) with (t1 - E - (E2 - E)) by lia.
    rewrite <- (rne_mul_pow2 (Zpos X1) (E1 - E) (t1 - E)) by lia.
    rewrite <- (rne_mul_pow2 (Zpos X2) (E2 - E) (t1 - E)) by lia.
    apply rne_mono; [lia|]. apply le_IZR.
    rewrite !mult_IZR, !bpow_IZR by lia.
    apply (Rmult_le_reg_r (bpow E)); [apply bpow_pos|].
    rewrite !Rmult_assoc, <- !bpow_add.
    replace (E1 - E + E) with E1 by lia. replace (E2 - E + E) with E2 by lia.
    exact Hle.
  - (* a lower binade *)
    destruct (Z.le_gt_cases (d2 + E2) emin) as [Hlow|Hhigh].
    + (* both below the least positive float: the smaller rounds to 0 *)
      assert (Ht1v : t1 = emin)
        by (unfold t1, SpecFloat.fexp; fold emin; lia).
      assert (Hz : rne (Zpos X1) (t1 - E1) = 0).
      { apply rne_small; [lia|].
        assert (2 ^ (d1 + 1) <= 2 ^ (t1 - E1)) by (apply Z.pow_le_mono_r; lia).
        rewrite Z.pow_add_r, Z.pow_1_r in * by lia. lia. }
      rewrite Hz, Rmult_0_l.
      apply Rmult_le_pos; [apply IZR_le; exact Hq2|left; apply bpow_pos].
    + (* a power of two lies between the two results *)
      assert (H2 : (bpow (d2 - 1 + E2)
                    <= IZR (rne (Zpos X2) (t2 - E2)) * bpow t2)%R).
      { assert (Hn2 : 0 <= t2 - E2 <= d2 - 1)
          by (unfold t2, SpecFloat.fexp in *; fold emin in *; lia).
        pose proof (rne_ge_pow (Zpos X2) (t2 - E2) (d2 - 1) Hn2 Zl2) as Hq.
        apply IZR_le in Hq. rewrite bpow_IZR in Hq by lia.
        replace (d2 - 1 + E2) with (d2 - 1 - (t2 - E2) + t2) by lia.
        rewrite bpow_add.
        apply Rmult_le_compat_r; [left; apply bpow_pos|exact Hq]. }
      assert (H1 : (IZR (rne (Zpos X1) (t1 - E1)) * bpow t1
                    <= bpow (d2 - 1 + E2))%R).
      { destruct (Z.le_gt_cases (t1 - E1) d1) as [Hn1|Hn1].
        - pose proof (rne_lt_pow (Zpos X1) (t1 - E1) d1 ltac:(lia) ltac:(lia))
            as [_ Hq].
          apply IZR_le in Hq. rewrite bpow_IZR in Hq by lia.
          apply Rle_trans with (bpow (d1 - (t1 - E1)) * bpow t1)%R.
          + apply Rmult_le_compat_r; [left; apply bpow_pos|exact Hq].
          + rewrite <- bpow_add. apply bpow_le. lia.
        - assert (Ht1v : t1 = emin)
            by (unfold t1, SpecFloat.fexp in *; fold emin in *; lia).
          assert (Hx : Zpos X1 < 2 ^ (t1 - E1)).
          { assert (2 ^ d1 <= 2 ^ (t1 - E1)) by (apply Z.pow_le_mono_r; lia).
            lia. }
          pose proof (rne_lt_pow (Zpos X1) (t1 - E1) (t1 - E1)
                        ltac:(lia) ltac:(lia)) as [_ Hq].
          rewrite Z.sub_diag, Z.pow_0_r in Hq. apply IZR_le in Hq.
          apply Rle_trans with (1 * bpow t1)%R.
          + apply Rmult_le_compat_r; [left; apply bpow_pos|exact Hq].
          + rewrite Rmult_1_l. apply bpow_le. lia. }
      lra.
Qed.

Lemma binary_round_monotone (m1 m2 : positive) (e1 e2 : Z) :
  (IZR (Zpos m1) * bpow e1 <= IZR (Zpos m2) * bpow e2)%R ->
  is_finite (binary_round prec emax false m1 e1) = true ->
  is_finite (binary_round prec emax false m2 e2) = true ->
  (SF2R (binary_round prec emax false m1 e1)
   <= SF2R (binary_round prec emax false m2 e2))%R.
Proof using prec_pos emax_big.
  intros Hle F1 F2.
  destruct (binary_round_same_value prec emax prec_pos emax_big false m1 e1)
    as (z1 & ez1 & Hv1 & _ & _ & Hl1 & Heq1).
  destruct (binary_round_same_value prec emax prec_pos emax_big false m2 e2)
    as (z2 & ez2 & Hv2 & _ & _ & Hl2 & Heq2).
  rewrite Heq1, Heq2 in *. rewrite <- Hv1, <- Hv2 in Hle.
  apply bra_monotone; assumption.
Qed.

Lemma convert_finite_inv (x : spec_float) :
  is_finite (convert prec emax x) = true -> is_finite x = true.
Proof using prec_pos emax_big.
  destruct x; cbn [convert is_finite]; intros H; (exact H || reflexivity).
Qed.

(** Conversion is monotone on the values that are not negative. *)
Lemma convert_monotone (x1 x2 : spec_float) :
  spec.strictly_negative x1 = false -> spec.strictly_negative x2 = false ->
  (SF2R x1 <= SF2R x2)%R ->
  is_finite (convert prec emax x1) = true ->
  is_finite (convert prec emax x2) = true ->
  (SF2R (convert prec emax x1) <= SF2R (convert prec emax x2))%R.
Proof using prec_pos emax_big.
  intros N1 N2 Hle F1 F2.
  pose proof (not_negative_value _ (convert_not_negative prec emax x2 N2)) as P2.
  destruct x1 as [s1|s1| |s1 m1 e1]; try discriminate;
    [cbn [convert SF2R]; exact P2|].
  destruct s1; [discriminate|].
  assert (Hpos : (0 < IZR (Zpos m1) * bpow e1)%R).
  { pose proof (bpow_pos e1).
    assert (0 < IZR (Zpos m1))%R by (apply IZR_lt; lia). nra. }
  cbn [SF2R] in Hle. unfold sign in Hle. rewrite Rmult_1_l in Hle.
  destruct x2 as [s2|s2| |s2 m2 e2]; try discriminate;
    [cbn [SF2R] in Hle; lra|].
  destruct s2; [discriminate|].
  cbn [convert]. apply binary_round_monotone; try assumption.
  cbn [SF2R] in Hle. unfold sign in Hle. lra.
Qed.

(** The product by a positive float is monotone on the values that are
    not negative. *)
Lemma SFmul_monotone (mc : positive) (ec : Z) (x1 x2 : spec_float) :
  bounded prec emax mc ec = true ->
  valid_binary prec emax x1 = true -> valid_binary prec emax x2 = true ->
  spec.strictly_negative x1 = false -> spec.strictly_negative x2 = false ->
  (SF2R x1 <= SF2R x2)%R ->
  is_finite (SFmul prec emax (S754_finite false mc ec) x1) = true ->
  is_finite (SFmul prec emax (S754_finite false mc ec) x2) = true ->
  (SF2R (SFmul prec emax (S754_finite false mc ec) x1)
   <= SF2R (SFmul prec emax (S754_finite false mc ec) x2))%R.
Proof using prec_pos emax_big.
  intros Vc V1 V2 N1 N2 Hle F1 F2.
  pose proof (not_negative_value _
                (SFmul_not_negative prec emax (S754_finite false mc ec) x2
                   eq_refl N2)) as P2.
  destruct x1 as [s1|s1| |s1 m1 e1]; try discriminate;
    [cbn [SFmul SF2R]; exact P2|].
  destruct s1; [discriminate|].
  assert (Hpos : (0 < IZR (Zpos m1) * bpow e1)%R).
  { pose proof (bpow_pos e1).
    assert (0 < IZR (Zpos m1))%R by (apply IZR_lt; lia). nra. }
  cbn [SF2R] in Hle. unfold sign in Hle. rewrite Rmult_1_l in Hle.
  destruct x2 as [s2|s2| |s2 m2 e2]; try discriminate;
    [cbn [SF2R] in Hle; lra|].
  destruct s2; [discriminate|].
  cbn [valid_binary] in V1, V2. cbn [SFmul xorb] in *.
  apply bra_monotone; try assumption;
    try (apply SFmul_exponent; assumption).
  cbn [SF2R] in Hle. unfold sign in Hle.
  rewrite !Pos2Z.inj_mul, !mult_IZR, !bpow_add.
  pose proof (value_nonneg mc ec). pose proof (bpow_pos ec).
  assert (0 < IZR (Zpos mc))%R by (apply IZR_lt; lia).
  replace (IZR (Zpos mc) * IZR (Zpos m1) * (bpow ec * bpow e1))%R
    with (IZR (Zpos mc) * bpow ec * (IZR (Zpos m1) * bpow e1))%R by ring.
  replace (IZR (Zpos mc) * IZR (Zpos m2) * (bpow ec * bpow e2))%R
    with (IZR (Zpos mc) * bpow ec * (IZR (Zpos m2) * bpow e2))%R by ring.
  apply Rmult_le_compat_l; lra.
Qed.

End Monotony.

(** ** Monotony of the perimeters *)

Lemma scaled_monotone (mc : positive) (ec : Z) (x1 x2 : double) :
  bounded 64 16384 mc ec = true ->
  is_double x1 -> is_double x2 ->
  spec.strictly_negative x1 = false -> spec.strictly_negative x2 = false ->
  (SF2R x1 <= SF2R x2)%R ->
  is_finite (to_double (lmul (S754_finite false mc ec) (to_long_double x1)))
  = true ->
  is_finite (to_double (lmul (S754_finite false mc ec) (to_long_double x2)))
  = true ->
  (SF2R (to_double (lmul (S754_finite false mc ec) (to_long_double x1)))
   <= SF2R (to_double (lmul (S754_finite false mc ec) (to_long_double x2))))%R.
Proof.
  intros Vc V1 V2 N1 N2 Hle F1 F2.
  pose proof (convert_not_negative 64 16384 x1 N1) as M1.
  pose proof (convert_not_negative 64 16384 x2 N2) as M2.
  apply (convert_monotone 53 1024); try lia; try assumption.
  - apply SFmul_not_negative; [reflexivity|exact M1].
  - apply SFmul_not_negative; [reflexivity|exact M2].
  - apply (SFmul_monotone 64 16384); try lia; try assumption.
    + apply to_long_double_valid.
    + apply to_long_double_valid.
    + fold (to_long_double x1). fold (to_long_double x2).
      rewrite !SF2R_to_long_double by assumption. exact Hle.
    + apply (convert_finite_inv 53 1024); try lia. exact F1.
    + apply (convert_finite_inv 53 1024); try lia. exact F2.
Qed.

(** X13.  The perimeter grows with the dimension: of two circles, two
    squares or two equilateral triangles with dimensions that are not
    negative, the one of the larger dimension does not have the smaller
    perimeter, when both perimeters are numbers. *)
Theorem perimeter_monotone (d1 d2 : double) :
  is_double d1 -> is_double d2 ->
  spec.strictly_negative d1 = false -> spec.strictly_negative d2 = false ->
  (SF2R d1 <= SF2R d2)%R ->
  (is_finite (fst (circle.get_circumference {| circle.r_ := d1 |})) = true ->
   is_finite (fst (circle.get_circumference {| circle.r_ := d2 |})) = true ->
   (SF2R (fst (circle.get_circumference {| circle.r_ := d1 |}))
    <= SF2R (fst (circle.get_circumference {| circle.r_ := d2 |})))%R) /\
  (is_finite (fst (square.get_circumference {| square.side_ := d1 |})) = true ->
   is_finite (fst (square.get_circumference {| square.side_ := d2 |})) = true ->
   (SF2R (fst (square.get_circumference {| square.side_ := d1 |}))
    <= SF2R (fst (square.get_circumference {| square.side_ := d2 |})))%R) /\
  (is_finite (fst (equilateral_triangle.get_circumference
                     {| equilateral_triangle.side_ := d1 |})) = true ->
   is_finite (fst (equilateral_triangle.get_circumference
                     {| equilateral_triangle.side_ := d2 |})) = true ->
   (SF2R (fst (equilateral_triangle.get_circumference
                 {| equilateral_triangle.side_ := d1 |}))
    <= SF2R (fst (equilateral_triangle.get_circumference
                    {| equilateral_triangle.side_ := d2 |})))%R).
Proof.
  intros V1 V2 N1 N2 Hle.
  cbn [circle.get_circumference square.get_circumference
       equilateral_triangle.get_circumference fst circle.r_ square.side_
       equilateral_triangle.side_].
  rewrite two_pi_long_double.
  change (long_literal 4) with (S754_finite false 9223372036854775808 (-61)).
  change (long_literal 3) with (S754_finite false 13835058055282163712 (-62)).
  repeat split; intros F1 F2; apply scaled_monotone; try assumption;
    reflexivity.
Qed.

Lemma one_le_two : (SF2R (double_of_int 1) <= SF2R (double_of_int 2))%R.
Proof.
  rewrite SF2R_one.
  change (double_of_int 2) with (S754_finite false 4503599627370496 (-51)).
  cbn [SF2R]. unfold sign. change (bpow (-51)) with (bpow (Z.opp 51)).
  rewrite bpow_neg_IZR by lia. change (2 ^ 51) with 2251799813685248. lra.
Qed.

Lemma perimeter_monotone_witness :
  (SF2R (fst (circle.get_circumference {| circle.r_ := double_of_int 1 |}))
   <= SF2R (fst (circle.get_circumference {| circle.r_ := double_of_int 2 |})))%R.
Proof.
  exact (proj1 (perimeter_monotone (double_of_int 1) (double_of_int 2)
                  eq_refl eq_refl eq_refl eq_refl one_le_two)
           eq_refl eq_refl).
Defined.

(** ** Degenerate scenes *)

Lemma zero_dimension_perimeter (o : shape) :
  is_zero (dimension o) = true -> is_zero (fst (get_circumference o)) = true.
Proof.
  destruct o as [[r]|[side]|[side]];
    cbn [dimension circle.r_ square.side_ equilateral_triangle.side_];
    intros Hz; [destruct r as [s| | |]|destruct side as [s| | |]
                |destruct side as [s| | |]];
    try discriminate; destruct s; reflexivity.
Qed.

Lemma dadd_pzero_zero (x : double) :
  is_zero x = true -> dadd pzero x = pzero.
Proof. destruct x as [s| | |]; try discriminate. destruct s; reflexivity. Qed.

(** X14.  A scene that holds only shapes of dimension zero, of either
    sign, has the perimeter [+0.0] exactly, never [-0.0]. *)
Theorem degenerate_scene_perimeter (h : store) (sc : scene.t) :
  Forall (fun p => exists o, nth_error h p = Some o /\
                             is_zero (dimension o) = true)
         (scene.shapes_ sc) ->
  scene.get_circumference sc h = Some ((pzero, sc), h).
Proof.
  intros Hz.
  assert (Hl : Forall (spec.live h) (scene.shapes_ sc)).
  { eapply Forall_impl; [|exact Hz]. intros p (o & Ho & _).
    unfold spec.live. apply nth_error_Some. congruence. }
  rewrite scene_get_circumference_live by exact Hl.
  unfold spec.left_fold.
  induction Hz as [|p l (o & Ho & Hd) Hz IH]; [reflexivity|].
  cbn [fold_left].
  assert (Hp : dadd pzero (spec.perimeter h p) = pzero).
  { apply dadd_pzero_zero. unfold spec.perimeter. rewrite Ho.
    apply zero_dimension_perimeter, Hd. }
  rewrite Hp. inversion Hl; subst.
  specialize (IH ltac:(assumption)). injection IH as IH.
  rewrite IH. reflexivity.
Qed.

Lemma degenerate_scene_perimeter_witness :
  scene.get_circumference {| scene.shapes_ := [0%nat; 1%nat; 0%nat] |}
    [a_square {| square.side_ := S754_zero true |};
     a_circle {| circle.r_ := S754_zero false |}]
  = Some ((pzero, {| scene.shapes_ := [0%nat; 1%nat; 0%nat] |}),
          [a_square {| square.side_ := S754_zero true |};
           a_circle {| circle.r_ := S754_zero false |}]).
Proof.
  apply (degenerate_scene_perimeter
           [a_square {| square.side_ := S754_zero true |};
            a_circle {| circle.r_ := S754_zero false |}]
           {| scene.shapes_ := [0%nat; 1%nat; 0%nat] |}).
  repeat constructor;
    (exists (a_square {| square.side_ := S754_zero true |}); split; reflexivity)
    || (exists (a_circle {| circle.r_ := S754_zero false |}); split; reflexivity).
Defined.

(** ** The perimeter of a circle, at every radius *)

Section MixedError.

Variables prec emax : Z.
Hypothesis prec_pos : 0 < prec.
Hypothesis emax_big : 2 <= emax.

Local Abbreviation fexp := (fexp prec emax).
Local Abbreviation emin := (emin prec emax).
Local Abbreviation bra := (binary_round_aux prec emax).

(** At every magnitude, the error of rounding is at most [2 ^ - prec]
    times the value plus half the least positive float. *)
Lemma bra_mixed_error (s : bool) (X : positive) (E : Z) :
  E <= fexp (Zdigits2 (Zpos X) + E) ->
  is_finite (bra s (Zpos X) E loc_Exact) = true ->
  (Rabs (SF2R (bra s (Zpos X) E loc_Exact) - sign s * (IZR (Zpos X) * bpow E))
   <= bpow (- prec) * (IZR (Zpos X) * bpow E) + bpow (emin - 1))%R.
Proof using prec_pos emax_big.
  intros Ht Hfin.
  pose proof (value_nonneg X E) as Hv. pose proof (bpow_pos (- prec)) as Hu.
  pose proof (bpow_pos (emin - 1)) as Hm.
  destruct (Z.le_gt_cases emin (Zdigits2 (Zpos X) + E - prec)) as [Hn|Hs].
  - pose proof (bra_rel_error prec emax prec_pos emax_big s X E Ht Hn Hfin).
    lra.
  - pose proof (bra_abs_error prec emax prec_pos emax_big s X E Ht Hfin) as Ha.
    assert (Hf : fexp (Zdigits2 (Zpos X) + E) = emin)
      by (unfold SpecFloat.fexp; fold emin; lia).
    rewrite Hf, <- bpow_half in Ha.
    assert (0 <= bpow (- prec) * (IZR (Zpos X) * bpow E))%R by nra.
    lra.
Qed.

Lemma convert_mixed_error (x : spec_float) :
  is_finite (convert prec emax x) = true ->
  (Rabs (SF2R (convert prec emax x) - SF2R x)
   <= bpow (- prec) * Rabs (SF2R x) + bpow (emin - 1))%R.
Proof using prec_pos emax_big.
  intros Hfin. pose proof (bpow_pos (emin - 1)) as Hm.
  destruct x as [s|s| |s m e];
    try (cbn [convert SF2R]; rewrite Rminus_diag, Rabs_R0, Rmult_0_r; lra).
  rewrite SF2R_finite_abs. cbn [convert] in *. cbn [SF2R].
  destruct (binary_round_same_value prec emax prec_pos emax_big s m e)
    as (mz & ez & Hv & _ & _ & Hle & Heq).
  rewrite Heq in *. rewrite <- Hv.
  apply bra_mixed_error; assumption.
Qed.

End MixedError.

(** X15.  At every finite radius that is not negative, the very small
    ones included, the perimeter of the circle, when it is a number, is
    within [1e-9] times 2 pi times the radius plus [2 ^ -1075], half the
    least positive [double], of 2 pi times the radius. *)
Theorem circle_perimeter_error_everywhere (r : double) :
  is_double r -> is_finite r = true -> spec.strictly_negative r = false ->
  is_finite (fst (circle.get_circumference {| circle.r_ := r |})) = true ->
  (Rabs (SF2R (fst (circle.get_circumference {| circle.r_ := r |}))
         - 2 * PI * SF2R r)
   <= / 10 ^ 9 * (2 * PI * SF2R r) + bpow (-1075))%R.
Proof.
  intros Hr Fr Nr Hfin. pose proof (bpow_pos (-1075)) as Hm.
  destruct r as [s|s| |s m e]; try discriminate.
  - assert (Hc : fst (circle.get_circumference {| circle.r_ := S754_zero s |})
                 = S754_zero s) by (destruct s; reflexivity).
    rewrite Hc. cbn [SF2R]. rewrite Rmult_0_r, Rminus_diag, Rabs_R0. lra.
  - assert (Hr0 : (0 < SF2R (S754_finite s m e))%R).
    { destruct s; [discriminate|]. cbn [SF2R]. unfold sign.
      pose proof (bpow_pos e). assert (0 < IZR (Zpos m))%R by (apply IZR_lt; lia).
      nra. }
    cbn [circle.get_circumference fst circle.r_] in *.
    rewrite two_pi_long_double in *.
    destruct (circle_product _ Hr Hr0) as [FL E1].
    rewrite two_pi_value in E1. apply Rabs_le_inv in E1.
    set (R0 := SF2R (S754_finite s m e)) in *.
    set (L := lmul _ (to_long_double (S754_finite s m e))) in *.
    assert (HL : (0 < SF2R L)%R) by lra.
    pose proof (convert_mixed_error 53 1024 ltac:(lia) ltac:(lia) L Hfin) as E2.
    fold (to_double L) in E2.
    change (emin 53 1024 - 1) with (-1075) in E2. change (- (53)) with (-53) in E2.
    rewrite (Rabs_pos_eq (SF2R L)), bpow_m53 in E2 by lra.
    apply Rabs_le_inv in E2.
    pose proof PI_bounds as [Hl Hu].
    assert (Hlo : (3.1415926535 * R0 <= PI * R0)%R) by nra.
    assert (Hhi : (PI * R0 <= 3.141592654 * R0)%R) by nra.
    replace (2 * PI * R0)%R with (2 * (PI * R0))%R by ring.
    set (T := (PI * R0)%R) in *.
    apply Rabs_le. lra.
Qed.

Lemma circle_perimeter_error_everywhere_witness :
  (Rabs (SF2R (fst (circle.get_circumference
                      {| circle.r_ := S754_finite false 1 (-1074) |}))
         - 2 * PI * SF2R (S754_finite false 1 (-1074)))
   <= / 10 ^ 9 * (2 * PI * SF2R (S754_finite false 1 (-1074)))
      + bpow (-1075))%R.
Proof.
  exact (circle_perimeter_error_everywhere (S754_finite false 1 (-1074))
           eq_refl eq_refl eq_refl eq_refl).
Defined.

